(** * Polyhedra: the polyhedron model, the platonic solids and the
      convex-hull face extraction of [manim/mobject/three_d/polyhedra.py]

    The Python classes are embedded shallowly.  Python integers are [Z],
    lists are [list], dictionaries with integer keys are [gmap Z _],
    exceptions are the [Raise] branch of [result], and the objects that the
    code mutates in place (face polygons, vertex dots) live in an explicit
    heap of objects addressed by their identity.  A Python set is the list
    of its elements together with an order of iteration that is a
    parameter.  The classes of manim that the file uses but does not define
    ([Polygon], [Graph], [VGroup], [QuickHull]) are modelled from the
    specification. *)

From Stdlib Require Import ZArith QArith Qcanon Lia.
From stdpp Require Import base option list gmap sorting.

Set Default Proof Using "Type".
Local Open Scope Z_scope.

(** ** Exceptions and fallible computations *)

(** The exceptions that appear in the code or in its specification.
    [KeyError] is what a dictionary lookup of a missing key raises and
    [AttributeError] what a method call on an object of the wrong class
    raises.  The last three are the error names of the specification. *)
Inductive exn : Type :=
  | KeyError (key : Z)
  | AttributeError
  | InvalidFaceIndexError
  | DegenerateFaceError
  | DegenerateInputError.

Inductive result (A : Type) : Type :=
  | Ok (a : A)
  | Raise (e : exn).
Arguments Ok {A} a.
Arguments Raise {A} e.

Definition result_bind {A B} (f : A → result B) (r : result A) : result B :=
  match r with
  | Ok a => f a
  | Raise e => Raise e
  end.

#[global] Instance result_ret : MRet result := λ A a, Ok a.
#[global] Instance result_mbind : MBind result := λ A B f r, result_bind f r.

(** A list comprehension whose element expression may raise: the elements
    are evaluated from left to right and the first exception aborts. *)
Fixpoint comprehension {A B} (f : A → result B) (l : list A) : result (list B) :=
  match l with
  | [] => Ok []
  | x :: l' => y ← f x; ys ← comprehension f l'; Ok (y :: ys)
  end.

(** A dictionary subscript [d[k]] on integer keys. *)
Definition subscript {V} (d : gmap Z V) (k : Z) : result V :=
  match d !! k with
  | Some v => Ok v
  | None => Raise (KeyError k)
  end.

(** [dict(enumerate(l))]. *)
Definition dict_enumerate {V} (l : list V) : gmap Z V := map_seqZ 0 l.

(** ** Edge derivation *)

(** [zip(face, face[1:] + face[:1])]. *)
Definition cyclic_zip (face : list Z) : list (Z * Z) :=
  zip face (drop 1 face ++ take 1 face).

(** [Polyhedron.get_edges]: the loop [for face in faces_list: edges += ...]. *)
Definition get_edges (faces_list : list (list Z)) : list (Z * Z) :=
  foldl (λ edges face, edges ++ cyclic_zip face) [] faces_list.

(** The cyclic adjacent pairs of a face cycle [(v0..vk)] in the words of the
    specification: the pair at position [i] is [(vi, v((i+1) mod (k+1)))]. *)
Definition spec_cyclic_pairs (face : list Z) : list (Z * Z) :=
  (λ i : nat, (nth i face 0, nth ((i + 1) mod length face)%nat face 0))
    <$> seq 0 (length face).

(** ** Coordinates and the polygon renderer *)

(** A coordinate triple over scalars [R] (the entries of a numpy array of
    shape (3,)); the model never looks inside a scalar, so [R] is a
    parameter. *)
Definition Point3D (R : Type) : Type := R * R * R.

(** Modelled from the spec: [Polygon] of [manim.mobject.geometry.polygram],
    which is not among the sources.  The specification describes it as the
    polygon renderer that accepts an ordered list of 3D points and produces
    a displayable polygon; [Geometry] is the point data of such a polygon and
    [Polygon] the function from the corner list to it. *)
Class PolygonRenderer (R : Type) : Type := {
  Geometry : Type;
  Polygon : list (Point3D R) → Geometry;
}.

(** An index is valid for a table of [n] entries: it lies in [[0, n)]. *)
Definition in_range (n : nat) (j : Z) : Prop := 0 ≤ j < Z.of_nat n.

#[global] Instance in_range_dec n j : Decision (in_range n j).
Proof. unfold in_range. apply _. Defined.

(** The corners that a face of valid indices denotes in a table. *)
Definition corners_of {R} (vc : list (Point3D R)) (face : list Z)
    (cs : list (Point3D R)) : Prop :=
  Forall2 (λ j c, vc !! Z.to_nat j = Some c) face cs.

(** ** Objects and the heap *)

(** An object is referred to by its identity, its index in the heap. *)
Abbreviation oid := nat.

(** The instance attributes that [Polyhedron.__init__] assigns.  The two
    configuration dictionaries are passed through to the renderer unread
    and are left out; [submobjects] is what [self.add] fills. *)
Record Polyhedron (R : Type) : Type := mkPolyhedron {
  vertex_coords : list (Point3D R);
  vertex_indices : list Z;
  layout : gmap Z (Point3D R);
  faces_list : list (list Z);
  face_coords : list (list (Point3D R));
  edges : list (Z * Z);
  faces : oid;
  graph : oid;
  submobjects : list oid;
}.
Arguments mkPolyhedron {R}.
Arguments vertex_coords {R}.
Arguments vertex_indices {R}.
Arguments layout {R}.
Arguments faces_list {R}.
Arguments face_coords {R}.
Arguments edges {R}.
Arguments faces {R}.
Arguments graph {R}.
Arguments submobjects {R}.

(** The classes of objects the code creates: a face polygon with its point
    data, a vertex dot with its centre, a [VGroup] with its members, a
    [Graph] with its vertex dictionary (insertion ordered) and edges, and
    the polyhedron itself. *)
Inductive object (R : Type) `{PolygonRenderer R} : Type :=
  | PolygonObj (points : Geometry)
  | Dot3DObj (center : Point3D R)
  | VGroupObj (members : list oid)
  | GraphObj (vertices : list (Z * oid)) (graph_edges : list (Z * Z))
  | PolyhedronObj (self : Polyhedron R).
Arguments PolygonObj {R _} points.
Arguments Dot3DObj {R _} center.
Arguments VGroupObj {R _} members.
Arguments GraphObj {R _} vertices graph_edges.
Arguments PolyhedronObj {R _} self.

Abbreviation heap R := (list (object R)).

Section Polyhedron.
Context {R : Type} `{PolygonRenderer R}.

(** Object creation: the new object gets the next free identity. *)
Definition new (o : object R) (h : heap R) : oid * heap R :=
  (length h, h ++ [o]).

(** [VGroup.add] of one freshly created member. *)
Definition VGroup_add (group member : oid) (h : heap R) : heap R :=
  match h !! group with
  | Some (VGroupObj ms) => <[group := VGroupObj (ms ++ [member])]> h
  | _ => h
  end.

(** [Polyhedron.create_faces]. *)
Definition create_faces (face_coords : list (list (Point3D R))) (h : heap R)
  : oid * heap R :=
  let '(face_group, h) := new (VGroupObj []) h in
  let h :=
    foldl (λ h face,
             let '(p, h) := new (PolygonObj (Polygon face)) h in
             VGroup_add face_group p h)
          h face_coords in
  (face_group, h).

(** Modelled from the spec: the constructor of [Graph] in
    [manim.mobject.graph], which is not among the sources.  It creates one
    vertex dot per vertex label, placed at the layout position of the
    label, and keeps the dots in a dictionary in the order of the labels;
    this dictionary is the position provider of the specification.  The
    display objects of the edges are not modelled. *)
Definition Graph_new (vertices : list Z) (edges : list (Z * Z))
    (layout : gmap Z (Point3D R)) (h : heap R) : result (oid * heap R) :=
  positions ← comprehension (subscript layout) vertices;
  let dots := seq (length h) (length positions) in
  Ok (new (GraphObj (zip vertices dots) edges) (h ++ (Dot3DObj <$> positions))).

(** [[[self.layout[j] for j in i] for i in faces_list]]. *)
Definition lookup_faces (layout : gmap Z (Point3D R)) (faces_list : list (list Z))
  : result (list (list (Point3D R))) :=
  comprehension (λ i, comprehension (λ j, subscript layout j) i) faces_list.

(** [Polyhedron.__init__].  The object [self] is entered into the heap
    when all its attributes are known; an exception leaves no object
    behind that anything refers to.  [add_updater] registers
    [update_faces] to be run by the scene; these runs are the
    [constructed_update] steps below. *)
Definition Polyhedron_init (vertex_coords : list (Point3D R))
    (faces_list : list (list Z)) (h : heap R) : result (oid * heap R) :=
  let vertex_indices := seqZ 0 (Z.of_nat (length vertex_coords)) in
  let layout := dict_enumerate vertex_coords in
  face_coords ← lookup_faces layout faces_list;
  let edges := get_edges faces_list in
  let '(faces, h) := create_faces face_coords h in
  '(graph, h) ← Graph_new vertex_indices edges layout h;
  Ok (new (PolyhedronObj
             (mkPolyhedron vertex_coords vertex_indices layout faces_list
                           face_coords edges faces graph [faces; graph])) h).

(** The heap that a successful construction leaves: the face group, the
    face polygons, the vertex dots, the graph and the polyhedron. *)
Definition constructed_heap (vc : list (Point3D R)) (fl : list (list Z))
    (fc : list (list (Point3D R))) (h : heap R) : heap R :=
  let g := length h in
  let d := (S g + length fc)%nat in
  h ++ VGroupObj (seq (S g) (length fc)) :: (PolygonObj ∘ Polygon <$> fc)
    ++ (Dot3DObj <$> vc)
    ++ [GraphObj (zip (seqZ 0 (Z.of_nat (length vc))) (seq d (length vc)))
                 (get_edges fl);
        PolyhedronObj
          (mkPolyhedron vc (seqZ 0 (Z.of_nat (length vc))) (dict_enumerate vc)
             fl fc (get_edges fl) g (d + length vc)%nat
             [g; (d + length vc)%nat])].

(** [self.graph[v]]: a lookup in the vertex dictionary of the graph. *)
Definition Graph_getitem (vertices : list (Z * oid)) (v : Z) : result oid :=
  match list_find (λ kv, kv.1 = v) vertices with
  | Some (_, (_, m)) => Ok m
  | None => Raise (KeyError v)
  end.

(** Modelled from the spec: [get_center] of a vertex dot, the current
    position of the vertex. *)
Definition get_center (m : oid) (h : heap R) : result (Point3D R) :=
  match h !! m with
  | Some (Dot3DObj c) => Ok c
  | _ => Raise AttributeError
  end.

(** [Polyhedron.extract_face_coords]. *)
Definition extract_face_coords (self : Polyhedron R) (h : heap R)
  : result (list (list (Point3D R))) :=
  match h !! graph self with
  | Some (GraphObj vertices _) =>
      new_vertex_coords ←
        comprehension (λ v, m ← Graph_getitem vertices v; get_center m h)
                      (vertices.*1);
      let layout := dict_enumerate new_vertex_coords in
      lookup_faces layout (faces_list self)
  | _ => Raise AttributeError
  end.

(** Assignment to the [points] attribute of a polygon. *)
Definition set_points (m : oid) (g : Geometry) (h : heap R) : heap R :=
  match h !! m with
  | Some (PolygonObj _) => <[m := PolygonObj g]> h
  | _ => h
  end.

(** Modelled from the spec: [match_points] of [manim.mobject.mobject],
    which is not among the sources.  The members of the two groups are
    paired in order and each member of the first receives the point data
    of its partner; the objects of the first group stay the same objects. *)
Definition match_points (self_group other_group : oid) (h : heap R)
  : result (heap R) :=
  match h !! self_group, h !! other_group with
  | Some (VGroupObj ms1), Some (VGroupObj ms2) =>
      Ok (foldl (λ h sm,
                   match h !! sm.2 with
                   | Some (PolygonObj g) => set_points sm.1 g h
                   | _ => h
                   end)
                h (zip ms1 ms2))
  | _, _ => Raise AttributeError
  end.

(** The body of [Polyhedron.update_faces] for the attribute record [self]. *)
Definition update_faces_body (self : Polyhedron R) (h : heap R) : result (heap R) :=
  face_coords ← extract_face_coords self h;
  let '(new_faces, h) := create_faces face_coords h in
  match_points (faces self) new_faces h.

(** [Polyhedron.update_faces], the synchronization step, called on the
    object [self]. *)
Definition update_faces (self : oid) (h : heap R) : result (heap R) :=
  match h !! self with
  | Some (PolyhedronObj p) => update_faces_body p h
  | _ => Raise AttributeError
  end.

(** *** What the outside does and sees *)

(** External code moves a vertex dot. *)
Definition move_vertex (m : oid) (c : Point3D R) (h : heap R) : heap R :=
  match h !! m with
  | Some (Dot3DObj _) => <[m := Dot3DObj c]> h
  | _ => h
  end.

(** The point data of the displayed faces of a polyhedron, in order. *)
Definition face_polygons (self : oid) (h : heap R) : option (list Geometry) :=
  match h !! self with
  | Some (PolyhedronObj p) =>
      match h !! faces p with
      | Some (VGroupObj ms) =>
          mapM (λ m, match h !! m with
                     | Some (PolygonObj g) => Some g
                     | _ => None
                     end) ms
      | _ => None
      end
  | _ => None
  end.

(** The current centre of the graph vertex with label [v]. *)
Definition vertex_center (self : oid) (h : heap R) (v : Z) : option (Point3D R) :=
  match h !! self with
  | Some (PolyhedronObj p) =>
      match h !! graph p with
      | Some (GraphObj vertices _) =>
          match list_find (λ kv, kv.1 = v) vertices with
          | Some (_, (_, m)) =>
              match h !! m with
              | Some (Dot3DObj c) => Some c
              | _ => None
              end
          | None => None
          end
      | _ => None
      end
  | _ => None
  end.

(** The states of a polyhedron built by [Polyhedron_init] from
    [vertex_coords] and [faces_list]: the state after construction, and
    every state reached from it by moving vertex dots, by overwriting the
    point data of a polygon, by creating unrelated objects, or by running
    the synchronization step. *)
Inductive constructed (vertex_coords : list (Point3D R))
    (faces_list : list (list Z)) (self : oid) : heap R → Prop :=
  | constructed_init h0 h :
      Polyhedron_init vertex_coords faces_list h0 = Ok (self, h) →
      constructed vertex_coords faces_list self h
  | constructed_move h m c :
      constructed vertex_coords faces_list self h →
      constructed vertex_coords faces_list self (move_vertex m c h)
  | constructed_set_points h m g :
      constructed vertex_coords faces_list self h →
      constructed vertex_coords faces_list self (set_points m g h)
  | constructed_new h o :
      constructed vertex_coords faces_list self h →
      constructed vertex_coords faces_list self (new o h).2
  | constructed_update h h' :
      constructed vertex_coords faces_list self h →
      update_faces self h = Ok h' →
      constructed vertex_coords faces_list self h'.

(** *** The shape of the heap of a constructed polyhedron *)

(** Two objects are of the same class and agree in everything but the
    point data of a polygon or the centre of a dot. *)
Definition same_object (x y : object R) : Prop :=
  match x, y with
  | PolygonObj _, PolygonObj _ => True
  | Dot3DObj _, Dot3DObj _ => True
  | _, _ => x = y
  end.

(** Every object of [h] is still there in [h'], the same but for point
    data and centres. *)
Definition evolves (h h' : heap R) : Prop :=
  ∀ o x, h !! o = Some x → ∃ y, h' !! o = Some y ∧ same_object x y.

(** The polyhedron [self] with attributes [p] owns the face polygons [fs]
    and the graph vertices [vs]. *)
Record polyhedron_at (vc : list (Point3D R)) (fl : list (list Z))
    (self : oid) (h : heap R) (p : Polyhedron R) (fs : list oid)
    (vs : list (Z * oid)) : Prop := {
  at_self : h !! self = Some (PolyhedronObj p);
  at_faces_list : faces_list p = fl;
  at_edges : edges p = get_edges fl;
  at_faces : h !! faces p = Some (VGroupObj fs);
  at_faces_length : length fs = length fl;
  at_faces_NoDup : NoDup fs;
  at_polygons : Forall (λ f, ∃ g, h !! f = Some (PolygonObj g)) fs;
  at_graph : ∃ es, h !! graph p = Some (GraphObj vs es);
  at_labels : vs.*1 = seqZ 0 (Z.of_nat (length vc));
  at_dots : Forall (λ m, ∃ c, h !! m = Some (Dot3DObj c)) (vs.*2);
  at_in_range : Forall (Forall (in_range (length vc))) fl;
}.

(** The invariant of a constructed polyhedron; the stored table is the
    one the constructor was given. *)
Definition polyhedron_inv (vc : list (Point3D R)) (fl : list (list Z))
    (self : oid) (h : heap R) : Prop :=
  ∃ p fs vs, polyhedron_at vc fl self h p fs vs ∧ vertex_coords p = vc.

(** The faces hold the current centres of the vertices they refer to. *)
Definition centers_of (self : oid) (h : heap R) (face : list Z)
    (cs : list (Point3D R)) : Prop :=
  Forall2 (λ j c, vertex_center self h j = Some c) face cs.

(** The attribute record with another stored vertex table. *)
Definition with_vertex_coords (vc : list (Point3D R)) (p : Polyhedron R)
  : Polyhedron R :=
  mkPolyhedron vc (vertex_indices p) (layout p) (faces_list p) (face_coords p)
               (edges p) (faces p) (graph p) (submobjects p).
End Polyhedron.

(** ** The platonic solids *)

(** The arithmetic of the coordinates (Python floats and [np.sqrt]); the
    solids are built for any implementation of it. *)
Class Scalar (R : Type) : Type := {
  of_int : Z → R;
  fadd : R → R → R;
  fmul : R → R → R;
  fdiv : R → R → R;
  fneg : R → R;
  fsqrt : R → R;
}.

Section Solids.
Context {R : Type} `{Scalar R} `{PolygonRenderer R}.

(** [Tetrahedron.__init__]. *)
Definition Tetrahedron (edge_length : R) (h : heap R) : result (oid * heap R) :=
  let unit := fdiv (fmul edge_length (fsqrt (of_int 2))) (of_int 4) in
  Polyhedron_init
    [ (unit, unit, unit);
      (unit, fneg unit, fneg unit);
      (fneg unit, unit, fneg unit);
      (fneg unit, fneg unit, unit) ]
    [[0; 1; 2]; [3; 0; 2]; [0; 1; 3]; [3; 1; 2]]
    h.

(** [Octahedron.__init__]. *)
Definition Octahedron (edge_length : R) (h : heap R) : result (oid * heap R) :=
  let unit := fdiv (fmul edge_length (fsqrt (of_int 2))) (of_int 2) in
  Polyhedron_init
    [ (unit, of_int 0, of_int 0);
      (fneg unit, of_int 0, of_int 0);
      (of_int 0, unit, of_int 0);
      (of_int 0, fneg unit, of_int 0);
      (of_int 0, of_int 0, unit);
      (of_int 0, of_int 0, fneg unit) ]
    [ [2; 4; 1]; [0; 4; 2]; [4; 3; 0]; [1; 3; 4];
      [3; 5; 0]; [1; 5; 3]; [2; 5; 1]; [0; 5; 2] ]
    h.

(** [Icosahedron.__init__]. *)
Definition Icosahedron (edge_length : R) (h : heap R) : result (oid * heap R) :=
  let unit_a :=
    fmul edge_length (fdiv (fadd (of_int 1) (fsqrt (of_int 5))) (of_int 4)) in
  let unit_b := fmul edge_length (fdiv (of_int 1) (of_int 2)) in
  Polyhedron_init
    [ (of_int 0, unit_b, unit_a);
      (of_int 0, fneg unit_b, unit_a);
      (of_int 0, unit_b, fneg unit_a);
      (of_int 0, fneg unit_b, fneg unit_a);
      (unit_b, unit_a, of_int 0);
      (unit_b, fneg unit_a, of_int 0);
      (fneg unit_b, unit_a, of_int 0);
      (fneg unit_b, fneg unit_a, of_int 0);
      (unit_a, of_int 0, unit_b);
      (unit_a, of_int 0, fneg unit_b);
      (fneg unit_a, of_int 0, unit_b);
      (fneg unit_a, of_int 0, fneg unit_b) ]
    [ [1; 8; 0]; [1; 5; 7]; [8; 5; 1]; [7; 3; 5]; [5; 9; 3];
      [8; 9; 5]; [3; 2; 9]; [9; 4; 2]; [8; 4; 9]; [0; 4; 8];
      [6; 4; 0]; [6; 2; 4]; [11; 2; 6]; [3; 11; 2]; [0; 6; 10];
      [10; 1; 0]; [10; 7; 1]; [11; 7; 3]; [10; 11; 7]; [10; 11; 6] ]
    h.

(** [Dodecahedron.__init__]. *)
Definition Dodecahedron (edge_length : R) (h : heap R) : result (oid * heap R) :=
  let unit_a :=
    fmul edge_length (fdiv (fadd (of_int 1) (fsqrt (of_int 5))) (of_int 4)) in
  let unit_b :=
    fmul edge_length (fdiv (fadd (of_int 3) (fsqrt (of_int 5))) (of_int 4)) in
  let unit_c := fmul edge_length (fdiv (of_int 1) (of_int 2)) in
  Polyhedron_init
    [ (unit_a, unit_a, unit_a);
      (unit_a, unit_a, fneg unit_a);
      (unit_a, fneg unit_a, unit_a);
      (unit_a, fneg unit_a, fneg unit_a);
      (fneg unit_a, unit_a, unit_a);
      (fneg unit_a, unit_a, fneg unit_a);
      (fneg unit_a, fneg unit_a, unit_a);
      (fneg unit_a, fneg unit_a, fneg unit_a);
      (of_int 0, unit_c, unit_b);
      (of_int 0, unit_c, fneg unit_b);
      (of_int 0, fneg unit_c, fneg unit_b);
      (of_int 0, fneg unit_c, unit_b);
      (unit_c, unit_b, of_int 0);
      (fneg unit_c, unit_b, of_int 0);
      (unit_c, fneg unit_b, of_int 0);
      (fneg unit_c, fneg unit_b, of_int 0);
      (unit_b, of_int 0, unit_c);
      (fneg unit_b, of_int 0, unit_c);
      (unit_b, of_int 0, fneg unit_c);
      (fneg unit_b, of_int 0, fneg unit_c) ]
    [ [18; 16; 0; 12; 1]; [3; 18; 16; 2; 14]; [3; 10; 9; 1; 18];
      [1; 9; 5; 13; 12]; [0; 8; 4; 13; 12]; [2; 16; 0; 8; 11];
      [4; 17; 6; 11; 8]; [17; 19; 5; 13; 4]; [19; 7; 15; 6; 17];
      [6; 15; 14; 2; 11]; [19; 5; 9; 10; 7]; [7; 10; 3; 14; 15] ]
    h.
End Solids.

(** The undirected edges of an edge list, without duplicates: a pair and its
    reverse are the same edge. *)
Definition undirected_edges (es : list (Z * Z)) : gset (Z * Z) :=
  list_to_set ((λ e, (Z.min e.1 e.2, Z.max e.1 e.2)) <$> es).

(** The numbers of vertices, faces and undirected edges of the polyhedron
    that a constructor call returned. *)
Definition counts {R} `{PolygonRenderer R} (r : result (oid * heap R))
  : option (nat * nat * nat) :=
  match r with
  | Ok (self, h) =>
      match h !! self with
      | Some (PolyhedronObj p) =>
          Some (length (vertex_coords p), length (faces_list p),
                size (undirected_edges (edges p)))
      | _ => None
      end
  | Raise _ => None
  end.

(** ** Python sets *)

(** A Python set is unordered: what the language fixes about the order in
    which a [for] loop visits a set is only that it visits every element
    once.  The order is a function of the hashes of the elements and of the
    history of the set.  A set is represented by the list of its distinct
    elements in the order of their insertion, and [set_iter] is the order of
    iteration; it is a parameter of the model, constrained by the two laws. *)
Class SetOrder (K : Type) : Type := {
  set_iter : list K → list K;
  set_iter_NoDup : ∀ s, NoDup s → NoDup (set_iter s);
  set_iter_elem_of : ∀ s x, x ∈ set_iter s ↔ x ∈ s;
}.

(** [s.add(x)]. *)
Definition set_add {K} `{EqDecision K} (x : K) (s : list K) : list K :=
  if decide (x ∈ s) then s else s ++ [x].

(** The set [s] after adding the elements of [l] one by one. *)
Definition set_update {K} `{EqDecision K} (s : list K) (l : list K) : list K :=
  foldl (λ s x, set_add x s) s l.

(** [set(l)]. *)
Definition set_of_list {K} `{EqDecision K} (l : list K) : list K :=
  set_update [] l.

(** [s - r]. *)
Definition set_difference {K} `{EqDecision K} (s r : list K) : list K :=
  filter (λ x, x ∉ r) s.

(** ** The hull state and the face extraction of [ConvexHull3D] *)

(** A point object of the hull is represented by its identity.  The
    specification keys the vertex table by the identity of the point, and
    the [coordinates] attribute is read from the hull state. *)
Abbreviation Point := nat.

(** A subfacet with its points and a facet with its subfacets, each in the
    order in which a [for] loop visits them. *)
Record SubFacet : Type := mkSubFacet { points : list Point }.

Record Facet : Type := mkFacet { facet_id : nat; subfacets : list SubFacet }.

#[global] Instance SubFacet_eq_dec : EqDecision SubFacet.
Proof. solve_decision. Defined.

#[global] Instance Facet_eq_dec : EqDecision Facet.
Proof. solve_decision. Defined.

(** Modelled from the spec: the state of [QuickHull] in [manim.utils.qhull],
    which is not among the sources: all facets ever created, the removed
    ones, and the coordinates of the point objects. *)
Record QuickHull (R : Type) : Type := mkQuickHull {
  facets : list Facet;
  removed : list Facet;
  coordinates : Point → Point3D R;
}.
Arguments mkQuickHull {R}.
Arguments facets {R}.
Arguments removed {R}.
Arguments coordinates {R}.

(** The local variables [vertices], [faces], [c] and [d] of
    [ConvexHull3D.__init__]. *)
Record extraction (R : Type) : Type := mkExtraction {
  ex_vertices : list (Point3D R);
  ex_faces : list (list Z);
  ex_c : Z;
  ex_d : gmap Point Z;
}.
Arguments mkExtraction {R}.
Arguments ex_vertices {R}.
Arguments ex_faces {R}.
Arguments ex_c {R}.
Arguments ex_d {R}.

(** A [for] loop whose body may raise. *)
Fixpoint for_each {A S} (body : S → A → result S) (s : S) (l : list A) : result S :=
  match l with
  | [] => Ok s
  | x :: l' => s' ← body s x; for_each body s' l'
  end.

(** [d[point]]. *)
Definition point_subscript (d : gmap Point Z) (point : Point) : result Z :=
  match d !! point with
  | Some i => Ok i
  | None => Raise (KeyError (Z.of_nat point))
  end.

(** The dictionary that maps every point of a duplicate-free list to its
    position in the list. *)
Definition index_map (seen : list Point) : gmap Point Z :=
  list_to_map (imap (λ i p, (p, Z.of_nat i)) seen).

(** The local variables when the distinct points seen so far are [seen] and
    the faces produced so far are [faces]. *)
Definition state_of {R} (hull : QuickHull R) (seen : list Point)
    (faces : list (list Z)) : extraction R :=
  mkExtraction (coordinates hull <$> seen) faces (Z.of_nat (length seen))
               (index_map seen).

Section ConvexHull3D.
Context {R : Type} `{SetOrder Facet} `{SetOrder Point}.

(** [set(hull.facets) - hull.removed], in the order of iteration. *)
Definition live_facets (hull : QuickHull R) : list Facet :=
  set_iter (set_difference (set_of_list (facets hull)) (removed hull)).

(** The body of [for point in subfacet.points]. *)
Definition visit_point (hull : QuickHull R)
    (st : extraction R * list Point) (point : Point)
  : extraction R * list Point :=
  let '(e, tmp) := st in
  let e :=
    if decide (ex_d e !! point = None)
    then mkExtraction (ex_vertices e ++ [coordinates hull point]) (ex_faces e)
                      (ex_c e + 1) (<[point := ex_c e]> (ex_d e))
    else e in
  (e, set_add point tmp).

(** The body of [for facet in facets]. *)
Definition visit_facet (hull : QuickHull R) (e : extraction R) (facet : Facet)
  : result (extraction R) :=
  let '(e, tmp) :=
    foldl (λ st subfacet, foldl (visit_point hull) st (points subfacet))
          (e, []) (subfacets facet) in
  face ← comprehension (point_subscript (ex_d e)) (set_iter tmp);
  Ok (mkExtraction (ex_vertices e) (ex_faces e ++ [face]) (ex_c e) (ex_d e)).

(** The face extraction of [ConvexHull3D.__init__]. *)
Definition extract_faces (hull : QuickHull R) : result (extraction R) :=
  for_each (visit_facet hull) (mkExtraction [] [] 0 ∅) (live_facets hull).

(** The points of a facet in the order of the traversal of its subfacets,
    and the points of the whole hull in the order of the traversal. *)
Definition facet_points (facet : Facet) : list Point :=
  concat (points <$> subfacets facet).

Definition traversal (hull : QuickHull R) : list Point :=
  concat (facet_points <$> live_facets hull).

(** The distinct points in the order of their first sighting. *)
Definition first_sights (hull : QuickHull R) : list Point :=
  set_of_list (traversal hull).
End ConvexHull3D.

(** The face of a facet in the words of the specification: the indices of
    its points in the order of their insertion into the set [tmp]. *)
Definition insertion_order_face (d : gmap Point Z) (facet : Facet)
  : result (list Z) :=
  comprehension (point_subscript d) (set_of_list (facet_points facet)).

(** *** Two orders of iteration *)

(** The order of insertion is one admissible order of iteration. *)
Definition insertion_order (K : Type) : SetOrder K :=
  {| set_iter := λ s, s;
     set_iter_NoDup := λ s Hs, Hs;
     set_iter_elem_of := λ s x, iff_refl (x ∈ s) |}.

(** The ascending order of the identities is another.  It is what CPython
    does on a small set of objects whose hashes are their identities: the
    table of a set of up to four elements has eight slots, an element of
    hash [n < 8] lies in slot [n], and iteration goes through the slots in
    ascending order. *)
Definition ascending_order : SetOrder Point.
Proof.
  refine {| set_iter := merge_sort (≤)%nat |}.
  - intros s Hs. by rewrite merge_sort_Permutation.
  - intros s x. by rewrite merge_sort_Permutation.
Defined.

(** A hull state with one triangular facet whose three subfacets (edges)
    list the points 2, 1 and 0 in this order of first sighting. *)
Definition triangle_facet : Facet :=
  mkFacet 0 [mkSubFacet [2; 1]; mkSubFacet [1; 0]; mkSubFacet [0; 2]]%nat.

Definition triangle_hull : QuickHull Z :=
  mkQuickHull [triangle_facet] [] (λ p, (Z.of_nat p, 0, 0)).

(** ** The hull engine and [ConvexHull3D.__init__] *)

(** Vectors over exact rationals.  The engine is described by the
    specification over floating-point coordinates; rounding is not
    modelled, the coordinates and the tolerance are rationals. *)
Definition vsub (a b : Point3D Qc) : Point3D Qc :=
  (a.1.1 - b.1.1, a.1.2 - b.1.2, a.2 - b.2)%Qc.

Definition cross (u v : Point3D Qc) : Point3D Qc :=
  (u.1.2 * v.2 - u.2 * v.1.2,
   u.2 * v.1.1 - u.1.1 * v.2,
   u.1.1 * v.1.2 - u.1.2 * v.1.1)%Qc.

Definition dot (u v : Point3D Qc) : Qc :=
  (u.1.1 * v.1.1 + u.1.2 * v.1.2 + u.2 * v.2)%Qc.

(** The point [d] lies strictly farther than [tol] from the plane through
    [a], [b] and [c]: with the normal [n = (b - a) x (c - a)] the distance
    is [|n . (d - a)| / |n|], and the comparison is made on the squares. *)
Definition off_plane (tol : Qc) (a b c d : Point3D Qc) : Prop :=
  let n := cross (vsub b a) (vsub c a) in
  (tol * tol * dot n n < dot n (vsub d a) * dot n (vsub d a))%Qc.

(** Four points form a non-degenerate simplex within the tolerance when
    each of them lies off the plane of the other three. *)
Definition nondegenerate (tol : Qc) (s : list (Point3D Qc)) : Prop :=
  match s with
  | [a; b; c; d] =>
      off_plane tol a b c d ∧ off_plane tol b c d a
      ∧ off_plane tol c d a b ∧ off_plane tol d a b c
  | _ => False
  end.

#[global] Instance nondegenerate_dec tol s : Decision (nondegenerate tol s).
Proof.
  unfold nondegenerate, off_plane.
  destruct s as [|a [|b [|c [|d [|]]]]]; apply _.
Defined.

(** Points are coplanar (or collinear) within the tolerance when they do
    not form a non-degenerate simplex. *)
Definition coplanar_within (tol : Qc) (s : list (Point3D Qc)) : Prop :=
  ¬ nondegenerate tol s.

(** The selections of [k] elements of a list, in the order of the list. *)
Fixpoint selections {A} (k : nat) (l : list A) : list (list A) :=
  match k, l with
  | O, _ => [[]]
  | S _, [] => []
  | S k', x :: l' => (cons x <$> selections k' l') ++ selections k l'
  end.

Section QuickHull.
(** Steps 2 to 6 of the algorithm of the specification (outside sets,
    absorption of the outside points, horizon, new facets) build the hull
    state from the initial simplex; no claim depends on them and they are
    a parameter. *)
Variable absorb : Qc → list (Point3D Qc) → list (Point3D Qc) → QuickHull Qc.

(** Modelled from the spec: [QuickHull.build] of [manim.utils.qhull],
    which is not among the sources.  Exact duplicates collapse to one
    point; the build fails with [DegenerateInputError] when fewer than 4
    points remain or when no 4 of the points form a non-degenerate
    simplex within the tolerance; otherwise it goes on from the first
    such simplex. *)
Definition QuickHull_build (tolerance : Qc) (points : list (Point3D Qc))
  : result (QuickHull Qc) :=
  let distinct := remove_dups points in
  if decide (length distinct < 4)%nat then Raise DegenerateInputError
  else
    match list_find (nondegenerate tolerance) (selections 4 distinct) with
    | Some (_, simplex) => Ok (absorb tolerance simplex distinct)
    | None => Raise DegenerateInputError
    end.

Context `{SetOrder Facet} `{SetOrder Point} `{PolygonRenderer Qc}.

(** [ConvexHull3D.__init__]: build the hull, extract vertices and faces,
    call the constructor of [Polyhedron]. *)
Definition ConvexHull3D_init (points : list (Point3D Qc)) (tolerance : Qc)
    (h : heap Qc) : result (oid * heap Qc) :=
  hull ← QuickHull_build tolerance points;
  e ← extract_faces hull;
  Polyhedron_init (ex_vertices e) (ex_faces e) h.
End QuickHull.

(** The default tolerance [1e-5], the four coplanar points of the
    specification, a renderer over rationals and a stand-in for the steps
    that are not modelled. *)
Definition default_tolerance : Qc := Q2Qc (1 # 100000).

Definition coplanar_square : list (Point3D Qc) :=
  [(0, 0, 0); (1, 0, 0); (0, 1, 0); (1, 1, 0)]%Qc.

Definition rational_renderer : PolygonRenderer Qc :=
  {| Geometry := list (Point3D Qc); Polygon := λ corners, corners |}.

Definition no_absorption (tolerance : Qc) (simplex points : list (Point3D Qc))
  : QuickHull Qc :=
  mkQuickHull [] [] (λ _, (0, 0, 0)%Qc).

(** ** A concrete renderer and the square pyramid of the class documentation *)

(** A renderer over integer coordinates whose polygons are their corner
    lists; it serves to run the model on concrete inputs. *)
Definition corner_renderer : PolygonRenderer Z :=
  {| Geometry := list (Point3D Z); Polygon := λ corners, corners |}.
#[global] Existing Instance corner_renderer.

(** The vertex table and face list of [SquarePyramidScene]. *)
Definition pyramid_vertex_coords : list (Point3D Z) :=
  [(1, 1, 0); (1, -1, 0); (-1, -1, 0); (-1, 1, 0); (0, 0, 2)].

Definition pyramid_faces_list : list (list Z) :=
  [[0; 1; 4]; [1; 2; 4]; [2; 3; 4]; [3; 0; 4]; [0; 1; 2; 3]].

(** The heap after [Polyhedron(vertex_coords, faces_list)] in an empty heap;
    the pyramid is object 12, its apex dot is object 10. *)
Definition pyramid_heap : heap Z :=
  match Polyhedron_init pyramid_vertex_coords pyramid_faces_list [] with
  | Ok (_, h) => h
  | Raise _ => []
  end.


(** ** Further concrete inputs and measures *)

(** A heap with a graph whose two vertex dots carry the labels 7 and 3, a
    face group, and the attributes of a polyhedron with the face [[0; 1]]
    that refers to this graph. *)
Definition relabelled_heap : heap Z :=
  [Dot3DObj (1, 1, 1); Dot3DObj (2, 2, 2);
   GraphObj [(7, 0%nat); (3, 1%nat)] []; VGroupObj []].

Definition relabelled_polyhedron : Polyhedron Z :=
  mkPolyhedron [] [] ∅ [[0; 1]] [] [] 3%nat 2%nat [3%nat; 2%nat].

(** The heap after a second pyramid was built beside the first; the second
    pyramid is object 25. *)
Definition two_pyramids_heap : heap Z :=
  match Polyhedron_init pyramid_vertex_coords pyramid_faces_list pyramid_heap with
  | Ok (_, h) => h
  | Raise _ => []
  end.

(** The face list of the polyhedron that a constructor call returned. *)
Definition built_faces {R} `{PolygonRenderer R} (r : result (oid * heap R))
  : option (list (list Z)) :=
  match r with
  | Ok (self, h) =>
      match h !! self with
      | Some (PolyhedronObj p) => Some (faces_list p)
      | _ => None
      end
  | Raise _ => None
  end.

(** The number of edges of a face list that join the two ends of the
    undirected edge [e], and the number of faces on which vertex [v] lies. *)
Definition edge_uses (fl : list (list Z)) (e : Z * Z) : nat :=
  length (filter (λ e', (Z.min e'.1 e'.2, Z.max e'.1 e'.2) = e) (get_edges fl)).

Definition faces_at (fl : list (list Z)) (v : Z) : nat :=
  length (filter (λ face, v ∈ face) fl).

(** A face list over [n] vertices is a closed surface of [k]-gons with [d]
    faces at every vertex: every undirected edge lies on exactly two faces. *)
Definition regular_closed (k d n : nat) (fl : list (list Z)) : Prop :=
  Forall (λ face, length face = k) fl
  ∧ Forall (λ v, faces_at fl v = d) (seqZ 0 (Z.of_nat n))
  ∧ Forall (λ e, edge_uses fl e = 2%nat)
           (elements (undirected_edges (get_edges fl))).

(** * Theorems *)

(** ** Edge derivation *)

Lemma cyclic_zip_length face : length (cyclic_zip face) = length face.
Proof.
  unfold cyclic_zip. rewrite length_zip_with, length_app, length_drop, length_take.
  destruct face as [|z face]; [done|]. cbn [length]. lia.
Qed.

Lemma cyclic_zip_spec face : cyclic_zip face = spec_cyclic_pairs face.
Proof.
  apply list_eq. intros i. unfold cyclic_zip, spec_cyclic_pairs.
  rewrite list_lookup_fmap, lookup_zip_with.
  destruct (decide (i < length face)%nat) as [Hi|Hi].
  - rewrite lookup_seq_lt by done. simpl.
    destruct (lookup_lt_is_Some_2 face i Hi) as [x Hx]. rewrite Hx. simpl.
    rewrite (nth_lookup_Some _ _ _ _ Hx).
    destruct (decide (i + 1 < length face)%nat) as [Hn|Hn].
    + rewrite lookup_app_l by (rewrite length_drop; lia).
      rewrite lookup_drop.
      destruct (lookup_lt_is_Some_2 face (1 + i) ltac:(lia)) as [y Hy].
      rewrite Hy. simpl. rewrite Nat.mod_small by done.
      replace (i + 1)%nat with (1 + i)%nat by lia.
      by rewrite (nth_lookup_Some _ _ _ _ Hy).
    + assert (i + 1 = length face)%nat as Heq by lia.
      rewrite lookup_app_r by (rewrite length_drop; lia).
      rewrite length_drop. replace (i - (length face - 1))%nat with 0%nat by lia.
      rewrite Heq, Nat.Div0.mod_same.
      destruct face as [|z face]; [simpl in Hi; lia|]. done.
  - rewrite lookup_seq_ge by lia.
    rewrite (lookup_ge_None_2 face i) by lia. done.
Qed.

Lemma get_edges_from acc faces_list :
  foldl (λ edges face, edges ++ cyclic_zip face) acc faces_list
  = acc ++ concat (cyclic_zip <$> faces_list).
Proof.
  revert acc. induction faces_list as [|face fl IH]; intros acc; simpl.
  - by rewrite app_nil_r.
  - rewrite IH. by rewrite <- app_assoc.
Qed.

(** C5: [get_edges] returns the concatenation, in face-list order, of the
    cyclic adjacent pairs [(vi, v((i+1) mod (k+1)))] of every face; nothing
    is deduplicated, so its length is the sum of the face lengths. *)
Theorem get_edges_cyclic_pairs (faces_list : list (list Z)) :
  get_edges faces_list = concat (spec_cyclic_pairs <$> faces_list)
  ∧ length (get_edges faces_list) = sum_list (length <$> faces_list).
Proof.
  unfold get_edges. rewrite get_edges_from. simpl. split.
  - f_equal. apply list_fmap_ext. intros _ face _. apply cyclic_zip_spec.
  - induction faces_list as [|face fl IH]; simpl; [done|].
    rewrite length_app, cyclic_zip_length. f_equal. exact IH.
Qed.

(** ** Fallible comprehensions and dictionaries *)

Lemma bind_Ok {A B} (f : A → result B) (a : A) : Ok a ≫= f = f a.
Proof. reflexivity. Qed.

Lemma bind_Raise {A B} (f : A → result B) (e : exn) : Raise e ≫= f = Raise e.
Proof. reflexivity. Qed.

Lemma comprehension_Ok {A B} (f : A → result B) (R : A → B → Prop) l :
  Forall (λ x, ∃ y, f x = Ok y ∧ R x y) l →
  ∃ ys, comprehension f l = Ok ys ∧ Forall2 R l ys.
Proof.
  induction 1 as [|x l (y & Hy & HR) _ (ys & IH & HF)]; simpl.
  - exists []. by split.
  - exists (y :: ys). rewrite Hy. simpl. rewrite IH. simpl. split; [done|].
    by constructor.
Qed.

Lemma comprehension_Ok_inv {A B} (f : A → result B) l ys :
  comprehension f l = Ok ys → Forall2 (λ x y, f x = Ok y) l ys.
Proof.
  revert ys. induction l as [|x l IH]; simpl; intros ys Hc.
  - injection Hc as <-. constructor.
  - destruct (f x) as [y|e] eqn:Hx; simpl in Hc; [|done].
    destruct (comprehension f l) as [zs|e] eqn:Hl; simpl in Hc; [|done].
    injection Hc as <-. constructor; [done|]. by apply IH.
Qed.

Lemma subscript_dict_enumerate {V} (l : list V) (j : Z) :
  subscript (dict_enumerate l) j =
    if decide (0 ≤ j < Z.of_nat (length l))
    then from_option Ok (Raise (KeyError j)) (l !! Z.to_nat j)
    else Raise (KeyError j).
Proof.
  unfold subscript, dict_enumerate. rewrite lookup_map_seqZ.
  case_decide as Hj.
  - rewrite option_guard_True by lia. simpl. rewrite Z.sub_0_r.
    by destruct (l !! Z.to_nat j).
  - case_guard; simpl; [|done]. rewrite Z.sub_0_r.
    rewrite lookup_ge_None_2 by lia. done.
Qed.

Lemma subscript_in_range {V} (l : list V) (j : Z) :
  0 ≤ j < Z.of_nat (length l) →
  ∃ x, subscript (dict_enumerate l) j = Ok x ∧ l !! Z.to_nat j = Some x.
Proof.
  intros Hj. rewrite subscript_dict_enumerate, decide_True by done.
  destruct (lookup_lt_is_Some_2 l (Z.to_nat j) ltac:(lia)) as [x Hx].
  exists x. by rewrite Hx.
Qed.

Lemma subscript_out_of_range {V} (l : list V) (j : Z) :
  ¬ (0 ≤ j < Z.of_nat (length l)) →
  subscript (dict_enumerate l) j = Raise (KeyError j).
Proof. intros Hj. by rewrite subscript_dict_enumerate, decide_False. Qed.

(** ** Construction of a polyhedron *)

Section Polyhedron_construction.
Context {R : Type} `{PolygonRenderer R}.
Implicit Types (h : heap R) (vc : list (Point3D R)) (fl : list (list Z)).

Lemma lookup_faces_Ok vc fl :
  Forall (Forall (in_range (length vc))) fl →
  ∃ fc, lookup_faces (dict_enumerate vc) fl = Ok fc
        ∧ Forall2 (corners_of vc) fl fc.
Proof.
  intros Hfl. apply comprehension_Ok.
  eapply Forall_impl; [exact Hfl|]. intros face Hface. simpl.
  apply comprehension_Ok.
  eapply Forall_impl; [exact Hface|]. intros j Hj. simpl.
  by apply subscript_in_range.
Qed.

Lemma lookup_faces_first_bad vc fl i k :
  list_find (λ j, ¬ in_range (length vc) j) (concat fl) = Some (i, k) →
  lookup_faces (dict_enumerate vc) fl = Raise (KeyError k).
Proof.
  unfold lookup_faces. revert i.
  induction fl as [|face fl IH]; intros i; simpl; [done|].
  revert i. induction face as [|j face IHface]; intros i; simpl.
  - intros Hfind. by rewrite (IH _ Hfind).
  - case_decide as Hj.
    + intros [= <- <-]. by rewrite subscript_out_of_range.
    + destruct (subscript_in_range vc j) as (x & -> & _).
      { unfold in_range in Hj. destruct (decide (0 ≤ j < Z.of_nat (length vc))); tauto. }
      simpl. intros Hfind.
      destruct (list_find _ (face ++ concat fl)) as [[i' k']|] eqn:Hf;
        simpl in Hfind; [|done].
      injection Hfind as <- <-.
      specialize (IHface _ eq_refl).
      destruct (comprehension (λ j, subscript (dict_enumerate vc) j) face)
        as [cs|e]; simpl in *; [|done].
      destruct (comprehension _ fl); simpl in *; done.
Qed.
(** *** The heap after [create_faces] and after [Graph_new] *)

Lemma add_face_step (face : list (Point3D R)) h ms ps :
  (let '(p, h'') := new (PolygonObj (Polygon face)) (h ++ VGroupObj ms :: ps) in
   VGroup_add (length h) p h'')
  = h ++ VGroupObj (ms ++ [S (length h + length ps)])
        :: (ps ++ [PolygonObj (Polygon face)]).
Proof.
  unfold new, VGroup_add. cbv beta iota. rewrite <- app_assoc.
  change ((VGroupObj ms :: ps) ++ ?l) with (VGroupObj ms :: (ps ++ l)).
  rewrite list_lookup_middle by done.
  rewrite insert_app_r_alt by lia. rewrite Nat.sub_diag.
  rewrite length_app. simpl. by rewrite Nat.add_succ_r.
Qed.

Lemma create_faces_fold (fc : list (list (Point3D R))) h ms ps :
  foldl (λ h' face,
           let '(p, h'') := new (PolygonObj (Polygon face)) h' in
           VGroup_add (length h) p h'')
        (h ++ VGroupObj ms :: ps) fc
  = h ++ VGroupObj (ms ++ seq (S (length h + length ps)) (length fc))
         :: (ps ++ (PolygonObj ∘ Polygon <$> fc)).
Proof.
  revert ms ps. induction fc as [|face fc IH]; intros ms ps.
  - simpl. by rewrite !app_nil_r.
  - cbn [foldl]. rewrite add_face_step, IH.
    rewrite length_app. simpl. rewrite <- !app_assoc. simpl.
    replace (S (length h + (length ps + 1))) with (S (S (length h + length ps)))
      by lia.
    done.
Qed.

Lemma create_faces_heap (fc : list (list (Point3D R))) h :
  create_faces fc h
  = (length h,
     h ++ VGroupObj (seq (S (length h)) (length fc))
          :: (PolygonObj ∘ Polygon <$> fc)).
Proof.
  unfold create_faces.
  change (new (VGroupObj []) h) with (length h, h ++ [VGroupObj []]).
  cbv beta iota. f_equal.
  rewrite (create_faces_fold fc h [] []). simpl. by rewrite Nat.add_0_r.
Qed.

Lemma vertex_positions vc :
  ∃ ps, comprehension (subscript (dict_enumerate vc))
                      (seqZ 0 (Z.of_nat (length vc))) = Ok ps
        ∧ ps = vc.
Proof.
  destruct (comprehension_Ok (subscript (dict_enumerate vc))
              (λ j c, vc !! Z.to_nat j = Some c)
              (seqZ 0 (Z.of_nat (length vc)))) as (ps & Hps & HF).
  { apply Forall_forall. intros j Hj. apply elem_of_seqZ in Hj.
    apply subscript_in_range. lia. }
  exists ps. split; [done|].
  apply list_eq. intros i.
  destruct (decide (i < length vc)%nat) as [Hi|Hi].
  - destruct (lookup_lt_is_Some_2 vc i Hi) as [x Hx].
    assert (seqZ 0 (Z.of_nat (length vc)) !! i = Some (Z.of_nat i)) as Hs.
    { rewrite lookup_seqZ. split; lia. }
    destruct (Forall2_lookup_l _ _ _ _ _ HF Hs) as (c & Hc & Hvc).
    rewrite Nat2Z.id in Hvc. congruence.
  - rewrite (lookup_ge_None_2 vc) by lia.
    apply lookup_ge_None_2. apply Forall2_length in HF.
    rewrite length_seqZ in HF. lia.
Qed.

Lemma Graph_new_heap vc es h :
  Graph_new (seqZ 0 (Z.of_nat (length vc))) es (dict_enumerate vc) h
  = Ok (length h + length vc,
        h ++ (Dot3DObj <$> vc)
          ++ [GraphObj (zip (seqZ 0 (Z.of_nat (length vc)))
                            (seq (length h) (length vc))) es])%nat.
Proof.
  unfold Graph_new. destruct (vertex_positions vc) as (ps & -> & ->).
  simpl. unfold new. rewrite length_app, length_fmap, <- app_assoc. done.
Qed.

Lemma Polyhedron_init_heap vc fl h :
  Forall (Forall (in_range (length vc))) fl →
  ∃ fc, Forall2 (corners_of vc) fl fc
        ∧ Polyhedron_init vc fl h
          = Ok ((S (length h) + length fc + length vc + 1)%nat,
                constructed_heap vc fl fc h).
Proof.
  intros Hfl. destruct (lookup_faces_Ok vc fl Hfl) as (fc & Hfc & HF).
  exists fc. split; [done|]. unfold Polyhedron_init.
  rewrite Hfc, bind_Ok, create_faces_heap, Graph_new_heap, bind_Ok.
  unfold new, constructed_heap.
  rewrite !length_app. simpl. rewrite !length_fmap.
  replace (length h + S (length fc))%nat with (S (length h + length fc)) by lia.
  f_equal. f_equal; [lia|].
  rewrite <- !app_assoc. simpl. rewrite <- ?app_assoc. simpl. done.
Qed.

End Polyhedron_construction.

(** ** The synchronization step *)

Section Synchronization.
Context {R : Type} `{PolygonRenderer R}.
Implicit Types (h : heap R) (vc : list (Point3D R)) (fl : list (list Z)).

(** *** Heaps that keep their objects *)

Lemma same_object_refl (x : object R) : same_object x x.
Proof. by destruct x. Qed.

Lemma same_object_trans (x y z : object R) :
  same_object x y → same_object y z → same_object x z.
Proof. destruct x, y, z; simpl; intros; try done; congruence. Qed.

Lemma evolves_refl h : evolves h h.
Proof. intros o x Hx. exists x. split; [done|]. apply same_object_refl. Qed.

Lemma evolves_trans h1 h2 h3 : evolves h1 h2 → evolves h2 h3 → evolves h1 h3.
Proof.
  intros H12 H23 o x Hx. destruct (H12 o x Hx) as (y & Hy & Hxy).
  destruct (H23 o y Hy) as (z & Hz & Hyz). exists z. split; [done|].
  by eapply same_object_trans.
Qed.

Lemma evolves_app h k : evolves h (h ++ k).
Proof.
  intros o x Hx. exists x. split; [|apply same_object_refl].
  by apply lookup_app_l_Some.
Qed.

Lemma evolves_insert h m x y :
  h !! m = Some x → same_object x y → evolves h (<[m := y]> h).
Proof.
  intros Hm Hxy o z Hz. destruct (decide (m = o)) as [->|Hne].
  - exists y. rewrite list_lookup_insert_eq by (by eapply lookup_lt_Some).
    split; [done|]. congruence.
  - exists z. rewrite list_lookup_insert_ne by done.
    split; [done|]. apply same_object_refl.
Qed.

Lemma evolves_move_vertex h m c : evolves h (move_vertex m c h).
Proof.
  unfold move_vertex. destruct (h !! m) as [[]|] eqn:Hm; try apply evolves_refl.
  by eapply evolves_insert.
Qed.

Lemma evolves_set_points h m g : evolves h (set_points m g h).
Proof.
  unfold set_points. destruct (h !! m) as [[]|] eqn:Hm; try apply evolves_refl.
  by eapply evolves_insert.
Qed.

Lemma evolves_polygon h h' o g :
  evolves h h' → h !! o = Some (PolygonObj g) →
  ∃ g', h' !! o = Some (PolygonObj g').
Proof.
  intros He Ho. destruct (He o _ Ho) as ([] & Hy & Hs); simpl in Hs; try done.
  by eexists.
Qed.

Lemma evolves_dot h h' o c :
  evolves h h' → h !! o = Some (Dot3DObj c) →
  ∃ c', h' !! o = Some (Dot3DObj c').
Proof.
  intros He Ho. destruct (He o _ Ho) as ([] & Hy & Hs); simpl in Hs; try done.
  by eexists.
Qed.

Lemma evolves_group h h' o ms :
  evolves h h' → h !! o = Some (VGroupObj ms) → h' !! o = Some (VGroupObj ms).
Proof.
  intros He Ho. destruct (He o _ Ho) as (y & Hy & Hs). simpl in Hs. by subst.
Qed.

Lemma evolves_graph h h' o vs es :
  evolves h h' → h !! o = Some (GraphObj vs es) → h' !! o = Some (GraphObj vs es).
Proof.
  intros He Ho. destruct (He o _ Ho) as (y & Hy & Hs). simpl in Hs. by subst.
Qed.

Lemma evolves_polyhedron h h' o p :
  evolves h h' → h !! o = Some (PolyhedronObj p) →
  h' !! o = Some (PolyhedronObj p).
Proof.
  intros He Ho. destruct (He o _ Ho) as (y & Hy & Hs). simpl in Hs. by subst.
Qed.

Lemma polyhedron_at_evolves vc fl self h h' p fs vs :
  polyhedron_at vc fl self h p fs vs → evolves h h' →
  polyhedron_at vc fl self h' p fs vs.
Proof.
  intros [] He. split; try done.
  - by eapply evolves_polyhedron.
  - by eapply evolves_group.
  - eapply Forall_impl; [done|]. intros f [g Hg]. by eapply evolves_polygon.
  - destruct at_graph0 as [es Hes]. exists es. by eapply evolves_graph.
  - eapply Forall_impl; [done|]. intros f [g Hg]. by eapply evolves_dot.
Qed.

(** *** The invariant holds after construction *)

Local Ltac index_is k :=
  match goal with |- _ !! ?n = _ => replace n with k by lia end.

Lemma Polyhedron_init_Ok_in_range vc fl h r :
  Polyhedron_init vc fl h = Ok r → Forall (Forall (in_range (length vc))) fl.
Proof.
  intros Hinit.
  destruct (list_find (λ j, ¬ in_range (length vc) j) (concat fl))
    as [[i k]|] eqn:Hfind.
  - unfold Polyhedron_init in Hinit.
    by rewrite (lookup_faces_first_bad _ _ _ _ Hfind) in Hinit.
  - apply list_find_None in Hfind. apply Forall_concat.
    eapply Forall_impl; [exact Hfind|]. intros j Hj. simpl in Hj.
    by destruct (decide (in_range (length vc) j)).
Qed.

Lemma constructed_heap_parts vc fl (fc : list (list (Point3D R))) h :
  constructed_heap vc fl fc h
  = (((h ++ [VGroupObj (seq (S (length h)) (length fc))])
        ++ (PolygonObj ∘ Polygon <$> fc))
       ++ (Dot3DObj <$> vc))
      ++ [GraphObj (zip (seqZ 0 (Z.of_nat (length vc)))
                        (seq (S (length h) + length fc) (length vc)))
                   (get_edges fl);
          PolyhedronObj
            (mkPolyhedron vc (seqZ 0 (Z.of_nat (length vc))) (dict_enumerate vc)
               fl fc (get_edges fl) (length h)
               (S (length h) + length fc + length vc)%nat
               [length h; (S (length h) + length fc + length vc)%nat])].
Proof. unfold constructed_heap. rewrite <- !app_assoc. done. Qed.

Lemma polyhedron_at_constructed_heap vc fl (fc : list (list (Point3D R))) h :
  Forall (Forall (in_range (length vc))) fl →
  length fc = length fl →
  polyhedron_at vc fl (S (length h) + length fc + length vc + 1)%nat
    (constructed_heap vc fl fc h)
    (mkPolyhedron vc (seqZ 0 (Z.of_nat (length vc))) (dict_enumerate vc)
       fl fc (get_edges fl) (length h)
       (S (length h) + length fc + length vc)%nat
       [length h; (S (length h) + length fc + length vc)%nat])
    (seq (S (length h)) (length fc))
    (zip (seqZ 0 (Z.of_nat (length vc)))
         (seq (S (length h) + length fc) (length vc))).
Proof.
  intros Hfl Hlen. rewrite constructed_heap_parts.
  set (A := h ++ [VGroupObj (seq (S (length h)) (length fc))]).
  set (B := A ++ (PolygonObj ∘ Polygon <$> fc)).
  set (C := B ++ (Dot3DObj <$> vc)).
  assert (length A = S (length h)) as HA.
  { unfold A. rewrite length_app. simpl. lia. }
  assert (length B = (S (length h) + length fc)%nat) as HB.
  { unfold B. rewrite length_app, length_fmap. lia. }
  assert (length C = (S (length h) + length fc + length vc)%nat) as HC.
  { unfold C. rewrite length_app, length_fmap. lia. }
  split; simpl; try done.
  - rewrite lookup_app_r by lia. rewrite HC. by index_is 1%nat.
  - do 3 apply lookup_app_l_Some. by apply list_lookup_middle.
  - by rewrite length_seq.
  - apply NoDup_seq.
  - apply Forall_forall. intros f Hf. apply elem_of_seq in Hf.
    destruct (lookup_lt_is_Some_2 fc (f - S (length h)) ltac:(lia)) as [cs Hcs].
    exists (Polygon cs). do 2 apply lookup_app_l_Some.
    unfold B. rewrite lookup_app_r by lia. rewrite HA.
    by rewrite list_lookup_fmap, Hcs.
  - eexists. rewrite lookup_app_r by lia. rewrite HC. by index_is 0%nat.
  - apply fst_zip. rewrite length_seqZ, length_seq. lia.
  - rewrite snd_zip by (rewrite length_seqZ, length_seq; lia).
    apply Forall_forall. intros m Hm. apply elem_of_seq in Hm.
    destruct (lookup_lt_is_Some_2 vc (m - (S (length h) + length fc))
                ltac:(lia)) as [c Hc].
    exists c. apply lookup_app_l_Some.
    unfold C. rewrite lookup_app_r by lia. rewrite HB.
    by rewrite list_lookup_fmap, Hc.
Qed.

Lemma polyhedron_inv_init vc fl h0 self h :
  Polyhedron_init vc fl h0 = Ok (self, h) → polyhedron_inv vc fl self h.
Proof.
  intros Hinit.
  pose proof (Polyhedron_init_Ok_in_range _ _ _ _ Hinit) as Hfl.
  destruct (Polyhedron_init_heap vc fl h0 Hfl) as (fc & Hfc & Heq).
  rewrite Heq in Hinit. injection Hinit as <- <-.
  do 3 eexists. split.
  - apply polyhedron_at_constructed_heap; [done|].
    symmetry. by eapply Forall2_length.
  - reflexivity.
Qed.

(** *** Reading the vertex positions *)

Lemma graph_vertex_center vc fl self h p fs vs v :
  polyhedron_at vc fl self h p fs vs → v ∈ vs.*1 →
  ∃ c, (m ← Graph_getitem vs v; get_center m h) = Ok c
       ∧ vertex_center self h v = Some c.
Proof.
  intros [] Hv. destruct at_graph0 as [es Hes].
  unfold vertex_center, Graph_getitem. rewrite at_self0, Hes.
  apply list_elem_of_fmap in Hv as ([v' m] & -> & Hvm).
  destruct (list_find _ vs) as [[i [v'' m']]|] eqn:Hfind.
  2:{ apply list_find_None in Hfind. rewrite Forall_forall in Hfind.
      by destruct (Hfind (v', m)). }
  apply list_find_Some in Hfind as (Hi & _ & _).
  rewrite Forall_forall in at_dots0.
  destruct (at_dots0 m') as [c Hc].
  { apply list_elem_of_fmap. exists (v'', m'). split; [done|].
    by eapply list_elem_of_lookup_2. }
  exists c. rewrite bind_Ok. unfold get_center. by rewrite Hc.
Qed.

Lemma corners_centers self h n cs face cs' :
  Forall2 (λ v c, vertex_center self h v = Some c) (seqZ 0 (Z.of_nat n)) cs →
  Forall (in_range n) face → corners_of cs face cs' →
  centers_of self h face cs'.
Proof.
  intros Hcs Hin Hface. unfold centers_of.
  induction Hface as [|j c face cs' Hj _ IH]; [constructor|].
  apply Forall_cons in Hin as [Hjn Hin]. constructor; [|by apply IH].
  unfold in_range in Hjn.
  assert (seqZ 0 (Z.of_nat n) !! Z.to_nat j = Some j) as Hs.
  { apply lookup_seqZ. lia. }
  by apply (Forall2_lookup_lr _ _ _ _ _ _ Hcs Hs Hj).
Qed.

Lemma extract_face_coords_spec vc fl self h p fs vs :
  polyhedron_at vc fl self h p fs vs →
  ∃ fc, extract_face_coords p h = Ok fc
        ∧ Forall2 (centers_of self h) fl fc.
Proof.
  intros Hat. pose proof Hat as [].
  destruct at_graph0 as [es Hes].
  unfold extract_face_coords. rewrite Hes.
  destruct (comprehension_Ok
              (λ v, m ← Graph_getitem vs v; get_center m h)
              (λ v c, vertex_center self h v = Some c) (vs.*1))
    as (cs & -> & Hcs).
  { apply Forall_forall. intros v Hv. by eapply graph_vertex_center. }
  rewrite bind_Ok, at_faces_list0.
  assert (length cs = length vc) as Hlen.
  { apply Forall2_length in Hcs. rewrite at_labels0, length_seqZ in Hcs. lia. }
  destruct (lookup_faces_Ok cs fl) as (fc & -> & Hfc).
  { by rewrite Hlen. }
  exists fc. split; [done|].
  pose proof at_in_range0 as Hfl. clear -Hfc Hfl Hcs Hlen at_labels0.
  rewrite at_labels0 in Hcs.
  induction Hfc as [|face cs' fl fc Hface _ IH]; [constructor|].
  apply Forall_cons in Hfl as [Hin Hfl]. constructor; [|by apply IH].
  by eapply corners_centers.
Qed.

(** *** Copying the point data *)

Lemma set_points_polygon h m g g0 :
  h !! m = Some (PolygonObj g0) → set_points m g h = <[m := PolygonObj g]> h.
Proof. intros Hm. unfold set_points. by rewrite Hm. Qed.

Lemma match_points_fold (ds : list oid) :
  ∀ (ss : list oid) (gs : list Geometry) h,
    length ds = length ss → length ss = length gs → NoDup ds →
    (∀ i s g, ss !! i = Some s → gs !! i = Some g →
              h !! s = Some (PolygonObj g)) →
    Forall (λ d, ∃ g, h !! d = Some (PolygonObj g)) ds →
    Forall (λ s, s ∉ ds) ss →
    let h' := foldl (λ h sm,
                       match h !! sm.2 with
                       | Some (PolygonObj g) => set_points sm.1 g h
                       | _ => h
                       end) h (zip ds ss) in
    length h' = length h
    ∧ (∀ i d g, ds !! i = Some d → gs !! i = Some g →
                h' !! d = Some (PolygonObj g))
    ∧ (∀ o, o ∉ ds → h' !! o = h !! o).
Proof.
  induction ds as [|d ds IH]; intros ss gs h Hl1 Hl2 Hnd Hss Hds Hdisj.
  - simpl. split_and!; [done| |done]. intros i d g Hd. by destruct i.
  - destruct ss as [|s ss]; [simpl in Hl1; lia|].
    destruct gs as [|g gs]; [simpl in Hl2; lia|].
    simpl in Hl1, Hl2. apply NoDup_cons in Hnd as [Hd Hnd].
    apply Forall_cons in Hds as [[g0 Hg0] Hds].
    apply Forall_cons in Hdisj as [Hs Hdisj].
    cbn [zip zip_with foldl]. cbn [fst snd].
    rewrite (Hss 0%nat s g eq_refl eq_refl).
    rewrite (set_points_polygon _ _ _ _ Hg0).
    set (h1 := <[d := PolygonObj g]> h).
    destruct (IH ss gs h1) as (Hlen & Hset & Hrest); try done; try lia.
    + intros i s' g' Hs' Hg'. unfold h1.
      rewrite list_lookup_insert_ne.
      * by apply (Hss (S i)).
      * intros ->. rewrite Forall_forall in Hdisj.
        apply (Hdisj s'); [by eapply list_elem_of_lookup_2|]. left.
    + apply Forall_forall. intros d' Hd'.
      rewrite Forall_forall in Hds. destruct (Hds d' Hd') as [g' Hg'].
      exists g'. unfold h1. rewrite list_lookup_insert_ne; [done|].
      by intros ->.
    + eapply Forall_impl; [exact Hdisj|]. intros s' Hs'. simpl in Hs'.
      intros Hin. apply Hs'. by right.
    + split_and!.
      * rewrite Hlen. unfold h1. by rewrite length_insert.
      * intros [|i] d' g' Hd' Hg'; simpl in Hd', Hg'.
        -- injection Hd' as <-. injection Hg' as <-.
           rewrite Hrest by done. unfold h1.
           apply list_lookup_insert_eq. by eapply lookup_lt_Some.
        -- by eapply Hset.
      * intros o Ho. apply not_elem_of_cons in Ho as [Hne Ho].
        rewrite Hrest by done. unfold h1. by rewrite list_lookup_insert_ne.
Qed.

(** *** One run of the synchronization step *)

Lemma update_faces_spec vc fl self h p fs vs :
  polyhedron_at vc fl self h p fs vs →
  ∃ fc h',
    Forall2 (centers_of self h) fl fc
    ∧ update_faces_body p h = Ok h'
    ∧ update_faces self h = Ok h'
    ∧ length h' = (length h + 1 + length fl)%nat
    ∧ (∀ i d cs, fs !! i = Some d → fc !! i = Some cs →
                 h' !! d = Some (PolygonObj (Polygon cs)))
    ∧ (∀ o, o ∉ fs →
            h' !! o = (h ++ VGroupObj (seq (S (length h)) (length fc))
                         :: (PolygonObj ∘ Polygon <$> fc)) !! o).
Proof.
  intros Hat. destruct (extract_face_coords_spec _ _ _ _ _ _ _ Hat)
    as (fc & Hext & Hfc).
  destruct Hat. exists fc.
  assert (length fc = length fl) as Hlen by (symmetry; by eapply Forall2_length).
  unfold update_faces. rewrite at_self0.
  unfold update_faces_body.
  rewrite Hext, bind_Ok, create_faces_heap. cbv beta iota.
  set (news := seq (S (length h)) (length fc)).
  set (polys := PolygonObj ∘ Polygon <$> fc).
  set (h1 := h ++ VGroupObj news :: polys).
  assert (length h1 = (length h + 1 + length fl)%nat) as Hlen1.
  { unfold h1, polys. rewrite length_app. simpl. rewrite length_fmap. lia. }
  unfold match_points.
  assert (h1 !! faces p = Some (VGroupObj fs)) as ->
    by (by apply lookup_app_l_Some).
  assert (h1 !! length h = Some (VGroupObj news)) as ->
    by (by apply list_lookup_middle).
  destruct (match_points_fold fs news (Polygon <$> fc) h1)
    as (Hl & Hset & Hrest).
  - unfold news. rewrite length_seq. lia.
  - unfold news. by rewrite length_seq, length_fmap.
  - done.
  - intros i s g Hs Hg. apply lookup_seq in Hs as [-> Hi].
    rewrite list_lookup_fmap in Hg.
    destruct (fc !! i) as [cs|] eqn:Hcs; simpl in Hg; [|done].
    injection Hg as <-. unfold h1.
    rewrite lookup_app_r by lia.
    replace (S (length h) + i - length h)%nat with (S i) by lia. simpl.
    unfold polys. by rewrite list_lookup_fmap, Hcs.
  - eapply Forall_impl; [exact at_polygons0|]. intros f [g Hg].
    exists g. by apply lookup_app_l_Some.
  - apply Forall_forall. intros s Hs Hin. apply elem_of_seq in Hs.
    rewrite Forall_forall in at_polygons0.
    destruct (at_polygons0 s Hin) as [g Hg]. apply lookup_lt_Some in Hg. lia.
  - eexists. split_and!; [done|reflexivity|reflexivity|..].
    + cbv zeta in Hl. by rewrite Hl.
    + intros i d cs Hd Hcs. apply (Hset i); [done|].
      by rewrite list_lookup_fmap, Hcs.
    + intros o Hnot. cbv zeta in Hrest. by rewrite Hrest.
Qed.

(** *** Consequences for the heap *)

Lemma not_polygon_not_member vc fl self h p fs vs o x :
  polyhedron_at vc fl self h p fs vs →
  h !! o = Some x → (∀ g, x ≠ PolygonObj g) → o ∉ fs.
Proof.
  intros [] Ho Hx Hin. rewrite Forall_forall in at_polygons0.
  destruct (at_polygons0 o Hin) as [g Hg]. rewrite Ho in Hg.
  injection Hg as ->. by eapply Hx.
Qed.

Lemma polyhedron_at_evolves_update vc fl self h p fs vs (fc : list (list (Point3D R))) h' :
  polyhedron_at vc fl self h p fs vs →
  length fc = length fl →
  (∀ i d cs, fs !! i = Some d → fc !! i = Some cs →
             h' !! d = Some (PolygonObj (Polygon cs))) →
  (∀ o, o ∉ fs →
        h' !! o = (h ++ VGroupObj (seq (S (length h)) (length fc))
                     :: (PolygonObj ∘ Polygon <$> fc)) !! o) →
  evolves h h'.
Proof.
  intros Hat Hlen Hset Hrest o x Ho.
  destruct (decide (o ∈ fs)) as [Hin|Hnot].
  - apply list_elem_of_lookup in Hin as [i Hi].
    destruct (lookup_lt_is_Some_2 fc i) as [cs Hcs].
    { apply lookup_lt_Some in Hi. destruct Hat. lia. }
    exists (PolygonObj (Polygon cs)). split; [by eapply Hset|].
    destruct Hat. rewrite Forall_forall in at_polygons0.
    destruct (at_polygons0 o) as [g Hg]; [by eapply list_elem_of_lookup_2|].
    rewrite Ho in Hg. by injection Hg as ->.
  - exists x. rewrite Hrest by done. split; [|apply same_object_refl].
    by apply lookup_app_l_Some.
Qed.

Lemma update_faces_evolves vc fl self h p fs vs h' :
  polyhedron_at vc fl self h p fs vs →
  update_faces self h = Ok h' → evolves h h'.
Proof.
  intros Hat Hup.
  destruct (update_faces_spec _ _ _ _ _ _ _ Hat)
    as (fc & h'' & Hfc & _ & Hup' & _ & Hset & Hrest).
  rewrite Hup in Hup'. injection Hup' as <-.
  eapply polyhedron_at_evolves_update; try done.
  symmetry. by eapply Forall2_length.
Qed.

Lemma polyhedron_inv_evolves vc fl self h h' :
  polyhedron_inv vc fl self h → evolves h h' → polyhedron_inv vc fl self h'.
Proof.
  intros (p & fs & vs & Hat & Hvc) He. exists p, fs, vs. split; [|done].
  by eapply polyhedron_at_evolves.
Qed.

(** Every state of a constructed polyhedron satisfies the invariant. *)
Lemma constructed_inv vc fl self h :
  constructed vc fl self h → polyhedron_inv vc fl self h.
Proof.
  induction 1 as [h0 h Hinit|h m c _ IH|h m g _ IH|h o _ IH|h h' _ IH Hup].
  - by eapply polyhedron_inv_init.
  - eapply polyhedron_inv_evolves; [done|]. apply evolves_move_vertex.
  - eapply polyhedron_inv_evolves; [done|]. apply evolves_set_points.
  - eapply polyhedron_inv_evolves; [done|]. apply evolves_app.
  - eapply polyhedron_inv_evolves; [done|].
    destruct IH as (p & fs & vs & Hat & _). by eapply update_faces_evolves.
Qed.

Lemma face_polygons_after vc fl self h p fs vs (fc : list (list (Point3D R))) :
  polyhedron_at vc fl self h p fs vs →
  length fc = length fl →
  (∀ i d cs, fs !! i = Some d → fc !! i = Some cs →
             h !! d = Some (PolygonObj (Polygon cs))) →
  face_polygons self h = Some (Polygon <$> fc).
Proof.
  intros [] Hlen Hset. unfold face_polygons. rewrite at_self0, at_faces0.
  apply mapM_Some. apply Forall2_same_length_lookup. split.
  - rewrite length_fmap. lia.
  - intros i d g Hd Hg. rewrite list_lookup_fmap in Hg.
    destruct (fc !! i) as [cs|] eqn:Hcs; simpl in Hg; [|done].
    injection Hg as <-. by rewrite (Hset i d cs).
Qed.

Lemma vertex_center_agree vc fl self h p fs vs h' v :
  polyhedron_at vc fl self h p fs vs →
  (∀ o x, h !! o = Some x → (∀ g, x ≠ PolygonObj g) → h' !! o = Some x) →
  vertex_center self h' v = vertex_center self h v.
Proof.
  intros [] Hsame. destruct at_graph0 as [es Hes]. unfold vertex_center.
  rewrite at_self0, (Hsame _ _ at_self0) by done.
  rewrite Hes, (Hsame _ _ Hes) by done.
  destruct (list_find _ vs) as [[i [v' m]]|] eqn:Hfind; [|done].
  apply list_find_Some in Hfind as (Hi & _ & _).
  rewrite Forall_forall in at_dots0. destruct (at_dots0 m) as [c Hc].
  { apply list_elem_of_fmap. exists (v', m). split; [done|].
    by eapply list_elem_of_lookup_2. }
  by rewrite Hc, (Hsame _ _ Hc).
Qed.

Lemma centers_of_agree self h h' fl (fc : list (list (Point3D R))) :
  (∀ v, vertex_center self h' v = vertex_center self h v) →
  Forall2 (centers_of self h') fl fc → Forall2 (centers_of self h) fl fc.
Proof.
  intros Hv Hfc. eapply Forall2_impl; [exact Hfc|]. intros face cs Hcs.
  unfold centers_of in *. eapply Forall2_impl; [exact Hcs|].
  intros j c Hj. by rewrite <- Hv.
Qed.

Lemma centers_of_unique self h fl (fc1 fc2 : list (list (Point3D R))) :
  Forall2 (centers_of self h) fl fc1 → Forall2 (centers_of self h) fl fc2 →
  fc1 = fc2.
Proof.
  intros H1 H2. eapply Forall2_unique; [exact H1|exact H2|].
  intros face cs1 cs2 Hc1 Hc2. eapply Forall2_unique; [exact Hc1|exact Hc2|].
  intros j c1 c2 Hj1 Hj2. congruence.
Qed.

(** One run, with everything that is known of the resulting heap. *)
Lemma update_faces_run vc fl self h p fs vs :
  polyhedron_at vc fl self h p fs vs →
  ∃ fc h',
    Forall2 (centers_of self h) fl fc
    ∧ update_faces self h = Ok h'
    ∧ polyhedron_at vc fl self h' p fs vs
    ∧ face_polygons self h' = Some (Polygon <$> fc)
    ∧ (∀ i d cs, fs !! i = Some d → fc !! i = Some cs →
                 h' !! d = Some (PolygonObj (Polygon cs)))
    ∧ (∀ o, (o < length h)%nat → o ∉ fs → h' !! o = h !! o)
    ∧ (∀ v, vertex_center self h' v = vertex_center self h v).
Proof.
  intros Hat.
  destruct (update_faces_spec _ _ _ _ _ _ _ Hat)
    as (fc & h' & Hfc & _ & Hup & _ & Hset & Hrest).
  assert (length fc = length fl) as Hlen by (symmetry; by eapply Forall2_length).
  assert (polyhedron_at vc fl self h' p fs vs) as Hat'.
  { eapply polyhedron_at_evolves; [done|].
    by eapply polyhedron_at_evolves_update. }
  assert (∀ o, (o < length h)%nat → o ∉ fs → h' !! o = h !! o) as Hold.
  { intros o Ho Hnot. rewrite Hrest by done. by rewrite lookup_app_l. }
  exists fc, h'. split_and!; try done.
  - by eapply face_polygons_after.
  - intros v. eapply vertex_center_agree; [exact Hat|]. intros o x Ho Hx.
    rewrite Hold; [done| |].
    + exact (lookup_lt_Some _ _ _ Ho).
    + exact (not_polygon_not_member _ _ _ _ _ _ _ _ _ Hat Ho Hx).
Qed.

(** *** The stored vertex table is not read *)

Lemma polyhedron_at_with_vertex_coords vc fl self h p fs vs vc' :
  polyhedron_at vc fl self h p fs vs →
  polyhedron_at vc fl self
    (<[self := PolyhedronObj (with_vertex_coords vc' p)]> h)
    (with_vertex_coords vc' p) fs vs
  ∧ ∀ o, o ≠ self →
         (<[self := PolyhedronObj (with_vertex_coords vc' p)]> h) !! o = h !! o.
Proof.
  intros Hat. pose proof Hat as [].
  assert (∀ o, o ≠ self →
            (<[self := PolyhedronObj (with_vertex_coords vc' p)]> h) !! o
            = h !! o) as Hne.
  { intros o Ho. by rewrite list_lookup_insert_ne. }
  assert (∀ o x, h !! o = Some x → (∀ q, x ≠ PolyhedronObj q) → o ≠ self)
    as Hkind.
  { intros o x Ho Hx ->. rewrite at_self0 in Ho. injection Ho as <-.
    by eapply Hx. }
  split; [|done]. split; simpl; try done.
  - apply list_lookup_insert_eq. by eapply lookup_lt_Some.
  - rewrite Hne; [done|]. by eapply Hkind.
  - eapply Forall_impl; [exact at_polygons0|]. intros f [g Hg]. exists g.
    rewrite Hne; [done|]. by eapply Hkind.
  - destruct at_graph0 as [es Hes]. exists es.
    rewrite Hne; [done|]. by eapply Hkind.
  - eapply Forall_impl; [exact at_dots0|]. intros m [c Hc]. exists c.
    rewrite Hne; [done|]. by eapply Hkind.
Qed.

Lemma vertex_center_with_vertex_coords vc fl self h p fs vs vc' v :
  polyhedron_at vc fl self h p fs vs →
  vertex_center self (<[self := PolyhedronObj (with_vertex_coords vc' p)]> h) v
  = vertex_center self h v.
Proof.
  intros Hat.
  destruct (polyhedron_at_with_vertex_coords _ _ _ _ _ _ _ vc' Hat)
    as [[] Hne].
  destruct Hat. destruct at_graph1 as [es Hes]. destruct at_graph0 as [es' Hes'].
  simpl in Hes'. unfold vertex_center.
  rewrite at_self0, at_self1. simpl. rewrite Hes, Hes'.
  assert (es' = es) as -> .
  { rewrite Hne in Hes'; [congruence|]. intros Heq. congruence. }
  destruct (list_find _ vs) as [[i [v' m]]|] eqn:Hfind; [|done].
  apply list_find_Some in Hfind as (Hi & _ & _).
  rewrite Forall_forall in at_dots1. destruct (at_dots1 m) as [c Hc].
  { apply list_elem_of_fmap. exists (v', m). split; [done|].
    by eapply list_elem_of_lookup_2. }
  rewrite Hne; [done|]. intros ->. congruence.
Qed.

Lemma update_faces_ignores_vertex_coords vc fl self h p fs vs vc' h' :
  polyhedron_at vc fl self h p fs vs →
  update_faces self h = Ok h' →
  update_faces self (<[self := PolyhedronObj (with_vertex_coords vc' p)]> h)
  = Ok (<[self := PolyhedronObj (with_vertex_coords vc' p)]> h').
Proof.
  intros Hat Hup.
  set (P' := PolyhedronObj (with_vertex_coords vc' p)).
  destruct (update_faces_spec _ _ _ _ _ _ _ Hat)
    as (fc & h'' & Hfc & _ & Hup' & Hlen & Hset & Hrest).
  rewrite Hup in Hup'. injection Hup' as <-.
  destruct (polyhedron_at_with_vertex_coords _ _ _ _ _ _ _ vc' Hat)
    as [Hat' Hne]. fold P' in Hat', Hne.
  destruct (update_faces_spec _ _ _ _ _ _ _ Hat')
    as (fc' & H' & Hfc' & _ & -> & Hlen' & Hset' & Hrest').
  assert (fc' = fc) as ->.
  { eapply centers_of_unique; [|exact Hfc].
    eapply centers_of_agree; [|exact Hfc']. intros v.
    exact (vertex_center_with_vertex_coords _ _ _ _ _ _ _ vc' v Hat). }
  assert (self < length h)%nat as Hself.
  { destruct Hat. exact (lookup_lt_Some _ _ _ at_self0). }
  f_equal. apply list_eq. intros o.
  destruct (decide (o ∈ fs)) as [Hin|Hnot].
  - assert (o ≠ self) as Hos.
    { intros ->. destruct Hat. rewrite Forall_forall in at_polygons0.
      destruct (at_polygons0 self Hin) as [g Hg]. congruence. }
    rewrite list_lookup_insert_ne by done.
    apply list_elem_of_lookup in Hin as [i Hi].
    destruct (lookup_lt_is_Some_2 fc i) as [cs Hcs].
    { apply lookup_lt_Some in Hi. destruct Hat.
      apply Forall2_length in Hfc. lia. }
    by rewrite (Hset' i o cs), (Hset i o cs).
  - rewrite Hrest' by done. rewrite length_insert.
    destruct (decide (o = self)) as [->|Hos].
    + rewrite list_lookup_insert_eq by lia.
      rewrite lookup_app_l by (by rewrite length_insert).
      apply list_lookup_insert_eq. lia.
    + rewrite list_lookup_insert_ne by done. rewrite Hrest by done.
      destruct (decide (o < length h)%nat).
      * rewrite !lookup_app_l by (by rewrite ?length_insert).
        by apply list_lookup_insert_ne.
      * rewrite !lookup_app_r by (rewrite ?length_insert; lia).
        by rewrite length_insert.
Qed.

(** *** The claims on the synchronization step *)

(** C9: one run of [update_faces] on a constructed polyhedron succeeds and
    is a frame around the point data of the polyhedron's own face
    polygons: the polyhedron object with all its attributes (vertex table,
    face list, edge list, the references to the face group and the graph)
    is unchanged, every object that existed before the run and is not one
    of the face polygons is unchanged (the face group with its members,
    the graph with its vertex dictionary, every vertex dot), and every
    face polygon is still a polygon at the same identity. *)
Theorem update_faces_frame vc fl self h :
  constructed vc fl self h →
  ∃ h' p fs,
    update_faces self h = Ok h'
    ∧ h !! self = Some (PolyhedronObj p)
    ∧ h' !! self = Some (PolyhedronObj p)
    ∧ vertex_coords p = vc ∧ faces_list p = fl ∧ edges p = get_edges fl
    ∧ h !! faces p = Some (VGroupObj fs)
    ∧ (∀ o, (o < length h)%nat → o ∉ fs → h' !! o = h !! o)
    ∧ (∀ o, o ∈ fs → ∃ g g', h !! o = Some (PolygonObj g)
                             ∧ h' !! o = Some (PolygonObj g')).
Proof.
  intros Hc. destruct (constructed_inv _ _ _ _ Hc) as (p & fs & vs & Hat & Hvc).
  destruct (update_faces_run _ _ _ _ _ _ _ Hat)
    as (fc & h' & Hfc & Hup & Hat' & _ & Hset & Hold & _).
  exists h', p, fs. pose proof Hat as []. pose proof Hat' as [].
  split_and!; try done.
  intros o Ho. rewrite Forall_forall in at_polygons0, at_polygons1.
  destruct (at_polygons0 o Ho) as [g Hg].
  destruct (at_polygons1 o Ho) as [g' Hg']. by exists g, g'.
Qed.

(** C4: on a constructed polyhedron two runs of [update_faces] in a row
    (the vertex positions unchanged between them) both succeed and leave
    the same face polygons; the second run changes no object that existed
    after the first. *)
Theorem update_faces_idempotent vc fl self h :
  constructed vc fl self h →
  ∃ h1 h2 polys,
    update_faces self h = Ok h1
    ∧ update_faces self h1 = Ok h2
    ∧ face_polygons self h1 = Some polys
    ∧ face_polygons self h2 = Some polys
    ∧ (∀ o, (o < length h1)%nat → h2 !! o = h1 !! o).
Proof.
  intros Hc. destruct (constructed_inv _ _ _ _ Hc) as (p & fs & vs & Hat & Hvc).
  destruct (update_faces_run _ _ _ _ _ _ _ Hat)
    as (fc & h1 & Hfc & Hup & Hat1 & Hpolys & Hset & _ & Hv).
  destruct (update_faces_run _ _ _ _ _ _ _ Hat1)
    as (fc' & h2 & Hfc' & Hup' & _ & Hpolys' & Hset' & Hold' & _).
  assert (fc' = fc) as ->.
  { eapply centers_of_unique; [|exact Hfc].
    by eapply centers_of_agree. }
  exists h1, h2, (Polygon <$> fc). split_and!; try done.
  intros o Ho. destruct (decide (o ∈ fs)) as [Hin|Hnot]; [|by apply Hold'].
  apply list_elem_of_lookup in Hin as [i Hi].
  destruct (lookup_lt_is_Some_2 fc i) as [cs Hcs].
  { apply lookup_lt_Some in Hi. destruct Hat.
    apply Forall2_length in Hfc. lia. }
  by rewrite (Hset' i o cs), (Hset i o cs).
Qed.

(** C10: a run of [update_faces] on a constructed polyhedron takes the
    corners of every face from the current centres of the graph's vertex
    dots: the polygon of face [f] becomes [Polygon cs] where the [k]-th
    entry of [cs] is the current centre of graph vertex [faces_list[f][k]].
    The stored table [vertex_coords] still holds what the constructor was
    given, the run does not modify it, and it is not read: with any other
    table stored in the object the run produces the same heap. *)
Theorem update_faces_reads_vertex_centers vc fl self h :
  constructed vc fl self h →
  ∃ h' polys p,
    update_faces self h = Ok h'
    ∧ face_polygons self h' = Some polys
    ∧ Forall2 (λ face g, ∃ cs, g = Polygon cs ∧ centers_of self h face cs)
              fl polys
    ∧ h !! self = Some (PolyhedronObj p)
    ∧ h' !! self = Some (PolyhedronObj p)
    ∧ vertex_coords p = vc
    ∧ (∀ vc',
         update_faces self
           (<[self := PolyhedronObj (with_vertex_coords vc' p)]> h)
         = Ok (<[self := PolyhedronObj (with_vertex_coords vc' p)]> h')).
Proof.
  intros Hc. destruct (constructed_inv _ _ _ _ Hc) as (p & fs & vs & Hat & Hvc).
  destruct (update_faces_run _ _ _ _ _ _ _ Hat)
    as (fc & h' & Hfc & Hup & Hat' & Hpolys & _).
  exists h', (Polygon <$> fc), p. pose proof Hat as []. pose proof Hat' as [].
  split_and!; try done.
  - apply Forall2_fmap_r. eapply Forall2_impl; [exact Hfc|].
    intros face cs Hcs. by exists cs.
  - intros vc'. by eapply update_faces_ignores_vertex_coords.
Qed.
End Synchronization.


(** *** The claims at the square pyramid, after its apex was moved *)

Lemma pyramid_moved_constructed :
  constructed pyramid_vertex_coords pyramid_faces_list 12%nat
    (move_vertex 10%nat (0, 0, 3) pyramid_heap).
Proof.
  apply constructed_move. apply (constructed_init _ _ _ []).
  vm_compute. reflexivity.
Defined.

Lemma update_faces_frame_witness :
  constructed pyramid_vertex_coords pyramid_faces_list 12%nat
    (move_vertex 10%nat (0, 0, 3) pyramid_heap)
  ∧ ∃ h' p,
      update_faces 12%nat (move_vertex 10%nat (0, 0, 3) pyramid_heap) = Ok h'
      ∧ h' !! 12%nat = Some (PolyhedronObj p)
      ∧ vertex_coords p = pyramid_vertex_coords
      ∧ faces_list p = pyramid_faces_list.
Proof.
  split; [exact pyramid_moved_constructed|].
  destruct (update_faces_frame _ _ _ _ pyramid_moved_constructed)
    as (h' & p & fs & Hup & _ & Hself & Hvc & Hfl & _).
  exists h', p.
  split; [exact Hup|]. split; [exact Hself|]. split; [exact Hvc|exact Hfl].
Defined.

Lemma update_faces_idempotent_witness :
  constructed pyramid_vertex_coords pyramid_faces_list 12%nat
    (move_vertex 10%nat (0, 0, 3) pyramid_heap)
  ∧ ∃ h1 h2 polys,
      update_faces 12%nat (move_vertex 10%nat (0, 0, 3) pyramid_heap) = Ok h1
      ∧ update_faces 12%nat h1 = Ok h2
      ∧ face_polygons 12%nat h1 = Some polys
      ∧ face_polygons 12%nat h2 = Some polys.
Proof.
  split; [exact pyramid_moved_constructed|].
  destruct (update_faces_idempotent _ _ _ _ pyramid_moved_constructed)
    as (h1 & h2 & polys & H1 & H2 & Hp1 & Hp2 & _).
  exists h1, h2, polys.
  split; [exact H1|]. split; [exact H2|]. split; [exact Hp1|exact Hp2].
Defined.

Lemma update_faces_reads_vertex_centers_witness :
  constructed pyramid_vertex_coords pyramid_faces_list 12%nat
    (move_vertex 10%nat (0, 0, 3) pyramid_heap)
  ∧ ∃ h' polys,
      update_faces 12%nat (move_vertex 10%nat (0, 0, 3) pyramid_heap) = Ok h'
      ∧ face_polygons 12%nat h' = Some polys
      ∧ Forall2 (λ face g,
                   ∃ cs, g = Polygon cs
                         ∧ centers_of 12%nat
                             (move_vertex 10%nat (0, 0, 3) pyramid_heap) face cs)
                pyramid_faces_list polys.
Proof.
  split; [exact pyramid_moved_constructed|].
  destruct (update_faces_reads_vertex_centers _ _ _ _ pyramid_moved_constructed)
    as (h' & polys & p & Hup & Hpolys & Hc & _).
  exists h', polys.
  split; [exact Hup|]. split; [exact Hpolys|exact Hc].
Defined.

(** ** The claims on construction *)

Section Construction_claims.
Context {R : Type} `{PolygonRenderer R}.
Implicit Types (h : heap R) (vc : list (Point3D R)) (fl : list (list Z)).

Lemma constructed_heap_polygon vc fl (fc : list (list (Point3D R))) h i cs :
  fc !! i = Some cs →
  constructed_heap vc fl fc h !! (S (length h) + i)%nat
  = Some (PolygonObj (Polygon cs)).
Proof.
  intros Hcs. rewrite constructed_heap_parts.
  do 2 apply lookup_app_l_Some.
  rewrite lookup_app_r by (rewrite length_app; simpl; lia).
  rewrite length_app. simpl.
  replace (S (length h + i) - (length h + 1))%nat with i by lia.
  by rewrite list_lookup_fmap, Hcs.
Qed.

(** A construction from valid indices succeeds; the polyhedron has the
    given attributes and one polygon per face over the face's corners. *)
Lemma Polyhedron_init_Ok vc fl h :
  Forall (Forall (in_range (length vc))) fl →
  ∃ self h' p fc,
    Polyhedron_init vc fl h = Ok (self, h')
    ∧ h' !! self = Some (PolyhedronObj p)
    ∧ vertex_coords p = vc ∧ faces_list p = fl ∧ edges p = get_edges fl
    ∧ Forall2 (corners_of vc) fl fc
    ∧ face_polygons self h' = Some (Polygon <$> fc).
Proof.
  intros Hfl. destruct (Polyhedron_init_heap vc fl h Hfl) as (fc & Hfc & Heq).
  assert (length fc = length fl) as Hlen
    by (symmetry; by eapply Forall2_length).
  pose proof (polyhedron_at_constructed_heap vc fl fc h Hfl Hlen) as Hat.
  do 4 eexists. split; [exact Heq|]. pose proof Hat as [].
  split_and!; [done|reflexivity|reflexivity|reflexivity|exact Hfc|].
  eapply face_polygons_after; [exact Hat|done|].
  intros i d cs Hd Hcs. apply lookup_seq in Hd as [-> _].
  by apply constructed_heap_polygon.
Qed.

(** C2, as the code has it: when some face holds an index outside
    [[0, len(vertex_coords))], the constructor fails with the [KeyError]
    of the dictionary lookup [self.layout[j]], for the first such index
    [j] in the order of the face list; no [InvalidFaceIndexError] exists
    in the code. *)
Theorem Polyhedron_init_KeyError vc fl h :
  Exists (Exists (λ j, ¬ in_range (length vc) j)) fl →
  ∃ i k,
    list_find (λ j, ¬ in_range (length vc) j) (concat fl) = Some (i, k)
    ∧ ¬ in_range (length vc) k
    ∧ Polyhedron_init vc fl h = Raise (KeyError k).
Proof.
  intros Hex.
  assert (Exists (λ j, ¬ in_range (length vc) j) (concat fl)) as Hc.
  { apply Exists_exists in Hex as (face & Hface & Hj).
    apply Exists_exists in Hj as (j & Hj & Hbad).
    apply Exists_exists. exists j. split; [|done].
    apply list_elem_of_In, in_concat. exists face.
    by rewrite <- !list_elem_of_In. }
  apply Exists_exists in Hc as (j & Hj & Hbad).
  destruct (list_find (λ j, ¬ in_range (length vc) j) (concat fl))
    as [[i k]|] eqn:Hfind.
  - exists i, k. split; [done|].
    pose proof Hfind as (_ & Hk & _)%list_find_Some. split; [done|].
    unfold Polyhedron_init.
    by rewrite (lookup_faces_first_bad _ _ _ _ Hfind).
  - apply list_find_None in Hfind. rewrite Forall_forall in Hfind.
    by destruct (Hfind j Hj).
Qed.

(** C3, as the code has it: the constructor checks no face length.  When
    every index is valid and no face is empty, the construction succeeds,
    whatever the lengths of the faces, and builds for every face one
    polygon over exactly the corners of that face (a face of one or two
    indices gives a polygon of one or two corners). *)
Theorem Polyhedron_init_accepts_short_faces vc fl h :
  Forall (Forall (in_range (length vc))) fl →
  Forall (λ face, face ≠ []) fl →
  ∃ self h' polys,
    Polyhedron_init vc fl h = Ok (self, h')
    ∧ face_polygons self h' = Some polys
    ∧ Forall2 (λ face g, ∃ cs, g = Polygon cs ∧ length cs = length face
                               ∧ corners_of vc face cs) fl polys.
Proof.
  intros Hfl _.
  destruct (Polyhedron_init_Ok vc fl h Hfl)
    as (self & h' & p & fc & Hinit & _ & _ & _ & _ & Hfc & Hpolys).
  exists self, h', (Polygon <$> fc). split_and!; [done..|].
  apply Forall2_fmap_r. eapply Forall2_impl; [exact Hfc|].
  intros face cs Hcs. exists cs. split_and!; [done| |done].
  symmetry. by eapply Forall2_length.
Qed.

Lemma counts_Polyhedron_init vc fl h :
  Forall (Forall (in_range (length vc))) fl →
  counts (Polyhedron_init vc fl h)
  = Some (length vc, length fl, size (undirected_edges (get_edges fl))).
Proof.
  intros Hfl.
  destruct (Polyhedron_init_Ok vc fl h Hfl)
    as (self & h' & p & fc & -> & Hself & <- & <- & Hes & _).
  unfold counts. by rewrite Hself, Hes.
Qed.
End Construction_claims.

(** C8: for every edge length, every arithmetic of the coordinates and every
    heap, the four builders succeed, and the polyhedra they return have
    (vertices, faces, undirected edges without duplicates) = (4, 4, 6) for
    the tetrahedron, (6, 8, 12) for the octahedron, (12, 20, 30) for the
    icosahedron and (20, 12, 30) for the dodecahedron. *)
Theorem platonic_solids_counts {R} `{Scalar R} `{PolygonRenderer R}
    (edge_length : R) (h : heap R) :
  counts (Tetrahedron edge_length h) = Some (4, 4, 6)%nat
  ∧ counts (Octahedron edge_length h) = Some (6, 8, 12)%nat
  ∧ counts (Icosahedron edge_length h) = Some (12, 20, 30)%nat
  ∧ counts (Dodecahedron edge_length h) = Some (20, 12, 30)%nat.
Proof.
  unfold Tetrahedron, Octahedron, Icosahedron, Dodecahedron.
  split_and!; (rewrite counts_Polyhedron_init;
    [ vm_compute; reflexivity
    | apply (bool_decide_unpack _); vm_compute; reflexivity ]).
Qed.

(** *** The construction claims at the square pyramid *)

(** C2 fails as stated: a face with index 99 on the 5-vertex table of the
    pyramid makes the constructor raise [KeyError 99], which is not
    [InvalidFaceIndexError]. *)
Lemma Polyhedron_init_index_99 :
  Exists (Exists (λ j, ¬ in_range (length pyramid_vertex_coords) j)) [[0; 1; 99]]
  ∧ Polyhedron_init pyramid_vertex_coords [[0; 1; 99]] [] = Raise (KeyError 99)
  ∧ Polyhedron_init pyramid_vertex_coords [[0; 1; 99]] []
    ≠ Raise InvalidFaceIndexError.
Proof.
  split_and!.
  - apply Exists_cons_hd. do 2 apply Exists_cons_tl. apply Exists_cons_hd.
    unfold in_range. simpl. lia.
  - vm_compute. reflexivity.
  - vm_compute. discriminate.
Qed.

Lemma Polyhedron_init_KeyError_witness :
  Exists (Exists (λ j, ¬ in_range (length pyramid_vertex_coords) j)) [[0; 1; 99]]
  ∧ ∃ i k,
      list_find (λ j, ¬ in_range (length pyramid_vertex_coords) j)
                (concat [[0; 1; 99]]) = Some (i, k)
      ∧ ¬ in_range (length pyramid_vertex_coords) k
      ∧ Polyhedron_init pyramid_vertex_coords [[0; 1; 99]] []
        = Raise (KeyError k).
Proof.
  assert (Exists (Exists (λ j, ¬ in_range (length pyramid_vertex_coords) j))
                 [[0; 1; 99]]) as Hex.
  { apply Exists_cons_hd. do 2 apply Exists_cons_tl. apply Exists_cons_hd.
    unfold in_range. simpl. lia. }
  split; [exact Hex|].
  exact (Polyhedron_init_KeyError pyramid_vertex_coords [[0; 1; 99]] [] Hex).
Defined.

(** C3 fails as stated: the face [[0; 1]] of two indices is accepted; the
    constructor returns a polyhedron whose only face is the polygon over
    the two corners. *)
Lemma Polyhedron_init_two_index_face :
  Exists (λ face : list Z, (length face < 3)%nat) [[0; 1]]
  ∧ Polyhedron_init pyramid_vertex_coords [[0; 1]] [] ≠ Raise DegenerateFaceError
  ∧ match Polyhedron_init pyramid_vertex_coords [[0; 1]] [] with
    | Ok (self, h) => face_polygons self h
    | Raise _ => None
    end = Some [[(1, 1, 0); (1, -1, 0)]].
Proof.
  split_and!.
  - apply Exists_cons_hd. simpl. lia.
  - vm_compute. discriminate.
  - vm_compute. reflexivity.
Qed.

Lemma Polyhedron_init_accepts_short_faces_witness :
  Forall (Forall (in_range (length pyramid_vertex_coords))) [[0; 1]]
  ∧ Forall (λ face : list Z, face ≠ []) [[0; 1]]
  ∧ ∃ self h' polys,
      Polyhedron_init pyramid_vertex_coords [[0; 1]] [] = Ok (self, h')
      ∧ face_polygons self h' = Some polys
      ∧ Forall2 (λ face g, ∃ cs, g = Polygon cs ∧ length cs = length face
                                 ∧ corners_of pyramid_vertex_coords face cs)
                [[0; 1]] polys.
Proof.
  assert (Forall (Forall (in_range (length pyramid_vertex_coords))) [[0; 1]])
    as Hfl.
  { repeat constructor; unfold in_range; simpl; lia. }
  assert (Forall (λ face : list Z, face ≠ []) [[0; 1]]) as Hne.
  { repeat constructor. discriminate. }
  split; [exact Hfl|]. split; [exact Hne|].
  exact (Polyhedron_init_accepts_short_faces pyramid_vertex_coords [[0; 1]] []
           Hfl Hne).
Defined.

(** ** Python sets *)

Section Sets.
Context {K : Type} `{EqDecision K}.
Implicit Types (s l : list K).

Lemma elem_of_set_add x y s : y ∈ set_add x s ↔ y = x ∨ y ∈ s.
Proof.
  unfold set_add. case_decide.
  - split; [auto|]. intros [->|]; done.
  - rewrite elem_of_app, list_elem_of_singleton. tauto.
Qed.

Lemma set_add_NoDup x s : NoDup s → NoDup (set_add x s).
Proof.
  intros Hs. unfold set_add. case_decide; [done|].
  apply NoDup_app. split_and!; [done| |apply NoDup_singleton].
  intros y Hy ->%list_elem_of_singleton. done.
Qed.

Lemma set_add_prefix x s : s `prefix_of` set_add x s.
Proof. unfold set_add. case_decide; [done|]. by apply prefix_app_r. Qed.

Lemma set_update_cons s x l :
  set_update s (x :: l) = set_update (set_add x s) l.
Proof. reflexivity. Qed.

Lemma set_update_app s l1 l2 :
  set_update s (l1 ++ l2) = set_update (set_update s l1) l2.
Proof. apply foldl_app. Qed.

Lemma elem_of_set_update y s l : y ∈ set_update s l ↔ y ∈ s ∨ y ∈ l.
Proof.
  revert s. induction l as [|x l IH]; intros s.
  - simpl. rewrite elem_of_nil. tauto.
  - rewrite set_update_cons, IH, elem_of_set_add, elem_of_cons. tauto.
Qed.

Lemma set_update_NoDup s l : NoDup s → NoDup (set_update s l).
Proof.
  revert s. induction l as [|x l IH]; intros s Hs; [done|].
  rewrite set_update_cons. apply IH. by apply set_add_NoDup.
Qed.

Lemma set_update_prefix s l : s `prefix_of` set_update s l.
Proof.
  revert s. induction l as [|x l IH]; intros s; [done|].
  rewrite set_update_cons. etrans; [apply set_add_prefix|apply IH].
Qed.

Lemma elem_of_set_of_list y l : y ∈ set_of_list l ↔ y ∈ l.
Proof. unfold set_of_list. rewrite elem_of_set_update, elem_of_nil. tauto. Qed.

Lemma set_of_list_NoDup l : NoDup (set_of_list l).
Proof. apply set_update_NoDup. constructor. Qed.
End Sets.

(** ** The dictionary of the vertex indices *)

Lemma imap_fst_index (seen : list Point) (f : nat → Z) :
  (imap (λ i p, (p, f i)) seen).*1 = seen.
Proof.
  revert f. induction seen as [|p seen IH]; intros f; [done|].
  simpl. f_equal. apply (IH (f ∘ S)).
Qed.

Lemma index_map_snoc seen p :
  p ∉ seen →
  index_map (seen ++ [p]) = <[p := Z.of_nat (length seen)]> (index_map seen).
Proof.
  intros Hp. unfold index_map. rewrite imap_app. simpl.
  rewrite Nat.add_0_r. apply list_to_map_snoc. by rewrite imap_fst_index.
Qed.

Lemma index_map_lookup seen p j :
  NoDup seen →
  index_map seen !! p = Some j ↔ ∃ i, j = Z.of_nat i ∧ seen !! i = Some p.
Proof.
  intros Hnd. unfold index_map.
  rewrite <- elem_of_list_to_map by (by rewrite imap_fst_index).
  rewrite elem_of_lookup_imap. split.
  - intros (i & q & [= -> ->] & Hi). by exists i.
  - intros (i & -> & Hi). by exists i, p.
Qed.

Lemma index_map_lookup_None seen p : index_map seen !! p = None ↔ p ∉ seen.
Proof.
  unfold index_map. rewrite <- not_elem_of_list_to_map.
  by rewrite imap_fst_index.
Qed.

Lemma index_map_prefix seen seen' p j :
  seen `prefix_of` seen' → NoDup seen' →
  index_map seen !! p = Some j → index_map seen' !! p = Some j.
Proof.
  intros Hpre Hnd Hp.
  assert (NoDup seen) as Hnd0.
  { destruct Hpre as [k ->]. by apply NoDup_app in Hnd as (? & _). }
  apply index_map_lookup in Hp as (i & -> & Hi); [|done].
  apply index_map_lookup; [done|]. exists i. split; [done|].
  by eapply prefix_lookup_Some.
Qed.

Lemma index_map_in_range seen p j :
  NoDup seen → index_map seen !! p = Some j → in_range (length seen) j.
Proof.
  intros Hnd (i & -> & Hi)%index_map_lookup; [|done].
  apply lookup_lt_Some in Hi. unfold in_range. lia.
Qed.

(** ** The face extraction of [ConvexHull3D] *)

Section Extraction.
Context {R : Type} `{SetOrder Facet} `{SetOrder Point}.
Implicit Types (hull : QuickHull R) (seen tmp : list Point)
  (faces : list (list Z)).

Lemma visit_point_state hull seen faces tmp p :
  visit_point hull (state_of hull seen faces, tmp) p
  = (state_of hull (set_add p seen) faces, set_add p tmp).
Proof.
  unfold visit_point. f_equal. cbn [state_of ex_d ex_vertices ex_faces ex_c].
  unfold set_add at 1. case_decide as Hp.
  - apply index_map_lookup_None in Hp. rewrite decide_False by done.
    unfold state_of. rewrite fmap_app, length_app, index_map_snoc by done.
    simpl. f_equal. lia.
  - rewrite decide_True; [done|].
    destruct (decide (p ∈ seen)) as [|Hn]; [done|].
    by apply index_map_lookup_None in Hn.
Qed.

Lemma visit_points_state hull seen faces tmp ps :
  foldl (visit_point hull) (state_of hull seen faces, tmp) ps
  = (state_of hull (set_update seen ps) faces, set_update tmp ps).
Proof.
  revert seen tmp. induction ps as [|p ps IH]; intros seen tmp; [done|].
  cbn [foldl]. by rewrite visit_point_state, IH.
Qed.

Lemma visit_subfacets hull (st : extraction R * list Point) sfs :
  foldl (λ st subfacet, foldl (visit_point hull) st (points subfacet)) st sfs
  = foldl (visit_point hull) st (concat (points <$> sfs)).
Proof.
  revert st. induction sfs as [|sf sfs IH]; intros st; [done|].
  simpl. by rewrite foldl_app, IH.
Qed.

Lemma comprehension_point_subscript d ps :
  Forall (λ p, is_Some (d !! p)) ps →
  ∃ face, comprehension (point_subscript d) ps = Ok face
          ∧ Forall2 (λ p j, d !! p = Some j) ps face.
Proof.
  intros Hps. apply comprehension_Ok.
  eapply Forall_impl; [exact Hps|]. intros p [j Hj]. exists j.
  unfold point_subscript. by rewrite Hj.
Qed.

(** One facet: its distinct points are added to the points seen, and the
    face lists their indices in the order in which the set [tmp] is
    iterated. *)
Lemma visit_facet_state hull seen faces facet :
  NoDup seen →
  ∃ face,
    visit_facet hull (state_of hull seen faces) facet
    = Ok (state_of hull (set_update seen (facet_points facet)) (faces ++ [face]))
    ∧ Forall2 (λ p j, index_map (set_update seen (facet_points facet)) !! p
                      = Some j)
              (set_iter (set_of_list (facet_points facet))) face.
Proof.
  intros Hnd. unfold visit_facet.
  rewrite visit_subfacets, visit_points_state.
  fold (facet_points facet). fold (set_of_list (facet_points facet)).
  destruct (comprehension_point_subscript
              (index_map (set_update seen (facet_points facet)))
              (set_iter (set_of_list (facet_points facet))))
    as (face & Hface & HF).
  { apply Forall_forall. intros p Hp.
    rewrite set_iter_elem_of, elem_of_set_of_list in Hp.
    apply not_eq_None_Some. rewrite index_map_lookup_None.
    intros Hn. apply Hn. apply elem_of_set_update. by right. }
  exists face. split; [|done].
  cbn [state_of ex_d ex_vertices ex_faces ex_c]. by rewrite Hface.
Qed.

(** The loop over the facets. *)
Lemma visit_facets_state hull fs :
  ∀ seen faces, NoDup seen →
    ∃ new_faces,
      let seen' := set_update seen (concat (facet_points <$> fs)) in
      for_each (visit_facet hull) (state_of hull seen faces) fs
      = Ok (state_of hull seen' (faces ++ new_faces))
      ∧ Forall2 (λ facet face,
                   Forall2 (λ p j, index_map seen' !! p = Some j)
                           (set_iter (set_of_list (facet_points facet))) face)
                fs new_faces.
Proof.
  induction fs as [|facet fs IH]; intros seen faces Hnd.
  - exists []. simpl. rewrite app_nil_r. by split.
  - destruct (visit_facet_state hull seen faces facet Hnd)
      as (face & Hvisit & Hface).
    destruct (IH (set_update seen (facet_points facet)) (faces ++ [face]))
      as (new_faces & Hrest & Hfaces); [by apply set_update_NoDup|].
    exists (face :: new_faces). cbn zeta in *.
    cbn [for_each fmap list_fmap concat]. rewrite Hvisit, bind_Ok, Hrest.
    rewrite set_update_app, <- app_assoc. split; [done|].
    constructor; [|done].
    eapply Forall2_impl; [exact Hface|]. intros p j Hj.
    eapply index_map_prefix; [apply set_update_prefix| |exact Hj].
    by do 2 apply set_update_NoDup.
Qed.

(** The result of the extraction, with the face of every facet in the
    order of iteration of its set of points. *)
Lemma extract_faces_state hull :
  ∃ faces,
    extract_faces hull = Ok (state_of hull (first_sights hull) faces)
    ∧ Forall2 (λ facet face,
                 Forall2 (λ p j, index_map (first_sights hull) !! p = Some j)
                         (set_iter (set_of_list (facet_points facet))) face)
              (live_facets hull) faces.
Proof.
  destruct (visit_facets_state hull (live_facets hull) [] [])
    as (faces & Hrun & Hfaces); [constructor|].
  exists faces. split; [exact Hrun|exact Hfaces].
Qed.

Lemma index_map_inj seen p q j :
  NoDup seen →
  index_map seen !! p = Some j → index_map seen !! q = Some j → p = q.
Proof.
  intros Hnd (i & -> & Hi)%index_map_lookup (i' & Heq & Hi')%index_map_lookup;
    [|done..].
  apply Nat2Z.inj in Heq as <-. congruence.
Qed.

Lemma Forall2_index_NoDup seen ps face :
  NoDup seen → NoDup ps →
  Forall2 (λ p j, index_map seen !! p = Some j) ps face → NoDup face.
Proof.
  intros Hseen Hps HF. induction HF as [|p j ps face Hj HF IH]; [constructor|].
  apply NoDup_cons in Hps as [Hp Hps]. apply NoDup_cons. split; [|by apply IH].
  intros Hin. apply list_elem_of_lookup in Hin as [i Hi].
  destruct (Forall2_lookup_r _ _ _ _ _ HF Hi) as (q & Hq & Hqj).
  assert (p = q) as -> by exact (index_map_inj _ _ _ _ Hseen Hj Hqj).
  apply Hp. exact (list_elem_of_lookup_2 _ _ _ Hq).
Qed.

(** C1: the face extraction succeeds on every hull state.  The vertex
    table holds the coordinates of the distinct points in the order of
    their first sighting during the traversal, and the dictionary [d]
    maps a point to the position of its first sighting (0, 1, 2, ...).
    The face of every live facet has no repeated index and consists of
    exactly the indices of the points of the subfacets of that facet.
    Every index in every face is below the length of the vertex table. *)
Theorem extract_faces_spec hull :
  ∃ e,
    extract_faces hull = Ok e
    ∧ ex_vertices e = coordinates hull <$> first_sights hull
    ∧ (∀ p j, ex_d e !! p = Some j
              ↔ ∃ i, j = Z.of_nat i ∧ first_sights hull !! i = Some p)
    ∧ Forall2 (λ facet face,
                 NoDup face
                 ∧ ∀ j, j ∈ face
                        ↔ ∃ p, p ∈ facet_points facet ∧ ex_d e !! p = Some j)
              (live_facets hull) (ex_faces e)
    ∧ Forall (Forall (in_range (length (ex_vertices e)))) (ex_faces e).
Proof.
  destruct (extract_faces_state hull) as (faces & Hrun & Hfaces).
  pose proof (set_of_list_NoDup (traversal hull)) as Hnd.
  fold (first_sights hull) in Hnd.
  eexists. split; [exact Hrun|]. cbn [state_of ex_d ex_vertices ex_faces ex_c].
  split_and!.
  - done.
  - intros p j. by apply index_map_lookup.
  - eapply Forall2_impl; [exact Hfaces|]. intros facet face HF. split.
    + eapply Forall2_index_NoDup; [exact Hnd| |exact HF].
      apply set_iter_NoDup, set_of_list_NoDup.
    + intros j. split.
      * intros Hj. apply list_elem_of_lookup in Hj as [i Hi].
        destruct (Forall2_lookup_r _ _ _ _ _ HF Hi) as (p & Hp & Hpj).
        exists p. split; [|done].
        rewrite <- (elem_of_set_of_list p), <- set_iter_elem_of.
        by eapply list_elem_of_lookup_2.
      * intros (p & Hp & Hpj).
        rewrite <- (elem_of_set_of_list p), <- set_iter_elem_of in Hp.
        apply list_elem_of_lookup in Hp as [i Hi].
        destruct (Forall2_lookup_l _ _ _ _ _ HF Hi) as (j' & Hj' & Hpj').
        rewrite Hpj in Hpj'. injection Hpj' as <-.
        by eapply list_elem_of_lookup_2.
  - rewrite length_fmap. apply Forall_forall. intros face Hface.
    apply list_elem_of_lookup in Hface as [i Hi].
    destruct (Forall2_lookup_r _ _ _ _ _ Hfaces Hi) as (facet & _ & HF).
    apply Forall_forall. intros j Hj.
    apply list_elem_of_lookup in Hj as [k Hk].
    destruct (Forall2_lookup_r _ _ _ _ _ HF Hk) as (p & _ & Hpj).
    by eapply index_map_in_range.
Qed.
End Extraction.

(** *** The order of the indices in a face *)

Section Face_order.
Context {R : Type} `{SetOrder Facet} `{SetOrder Point}.

Lemma Forall2_index_fmap (d : gmap Point Z) ps face :
  Forall2 (λ p j, d !! p = Some j) ps face →
  face = (λ p, default 0 (d !! p)) <$> ps
  ∧ comprehension (point_subscript d) ps = Ok face.
Proof.
  induction 1 as [|p j ps face Hj _ [IH1 IH2]]; [done|].
  cbn [comprehension fmap list_fmap].
  assert (point_subscript d p = Ok j) as ->
    by (unfold point_subscript; by rewrite Hj).
  rewrite bind_Ok, IH2, bind_Ok. split; [|done].
  rewrite Hj. simpl. by rewrite <- IH1.
Qed.

Lemma set_iter_Permutation (s : list Point) : NoDup s → set_iter s ≡ₚ s.
Proof.
  intros Hs. apply NoDup_Permutation; [by apply set_iter_NoDup|done|].
  intros x. apply set_iter_elem_of.
Qed.

(** C6, as the code has it: the face of a facet lists the indices of the
    facet's distinct points in the order in which Python iterates the set
    [tmp], that is [[d[p] for p in tmp]].  This order is a permutation of
    the order of insertion, fixed by the iteration order of the set, and
    the face is a function of the hull state and of that order. *)
Theorem extract_faces_face_order (hull : QuickHull R) :
  ∃ e,
    extract_faces hull = Ok e
    ∧ Forall2 (λ facet face,
                 comprehension (point_subscript (ex_d e))
                               (set_iter (set_of_list (facet_points facet)))
                 = Ok face
                 ∧ ∃ ins, insertion_order_face (ex_d e) facet = Ok ins
                          ∧ face ≡ₚ ins)
              (live_facets hull) (ex_faces e).
Proof.
  destruct (extract_faces_state hull) as (faces & Hrun & Hfaces).
  eexists. split; [exact Hrun|]. cbn [state_of ex_d ex_faces].
  eapply Forall2_impl; [exact Hfaces|]. intros facet face HF.
  destruct (Forall2_index_fmap _ _ _ HF) as [Hface Hcomp].
  split; [exact Hcomp|].
  destruct (comprehension_point_subscript (index_map (first_sights hull))
              (set_of_list (facet_points facet))) as (ins & Hins & HI).
  { apply Forall_forall. intros p Hp.
    rewrite <- set_iter_elem_of in Hp.
    apply list_elem_of_lookup in Hp as [i Hi].
    destruct (Forall2_lookup_l _ _ _ _ _ HF Hi) as (j & _ & Hj). by exists j. }
  exists ins. split; [exact Hins|].
  destruct (Forall2_index_fmap _ _ _ HI) as [-> _]. rewrite Hface.
  apply fmap_Permutation, set_iter_Permutation, set_of_list_NoDup.
Qed.
End Face_order.

(** C6 fails as stated: on the triangle whose points are first seen in the
    order 2, 1, 0, under the ascending order of iteration, the face is
    [[2; 1; 0]], while the order of insertion gives [[0; 1; 2]]. *)
Lemma extract_faces_not_insertion_order :
  ∃ e,
    extract_faces (H := insertion_order Facet) (H0 := ascending_order)
                  triangle_hull = Ok e
    ∧ ex_faces e = [[2; 1; 0]]
    ∧ insertion_order_face (ex_d e) triangle_facet = Ok [0; 1; 2]
    ∧ ¬ Forall2 (λ facet face, insertion_order_face (ex_d e) facet = Ok face)
                (live_facets (H := insertion_order Facet) triangle_hull)
                (ex_faces e).
Proof.
  eexists. split; [vm_compute; reflexivity|].
  split; [reflexivity|]. split; [vm_compute; reflexivity|].
  intros HF. vm_compute in HF. inversion HF as [|? ? ? ? Heq]. discriminate Heq.
Qed.

(** ** Degenerate input *)

Section Degenerate_input.
Context (absorb : Qc → list (Point3D Qc) → list (Point3D Qc) → QuickHull Qc)
  `{SetOrder Facet} `{SetOrder Point} `{PolygonRenderer Qc}.

Lemma QuickHull_build_degenerate tolerance points :
  (length (remove_dups points) < 4)%nat
  ∨ Forall (coplanar_within tolerance) (selections 4 (remove_dups points)) →
  QuickHull_build absorb tolerance points = Raise DegenerateInputError.
Proof.
  intros Hdeg. unfold QuickHull_build. cbv zeta. case_decide; [done|].
  destruct Hdeg as [Hfew|Hflat]; [done|].
  destruct (list_find _ _) as [[i s]|] eqn:Hfind; [|done].
  apply list_find_Some in Hfind as (Hi & Hs & _).
  rewrite Forall_forall in Hflat.
  destruct (Hflat s); [by eapply list_elem_of_lookup_2|done].
Qed.

(** C7: when fewer than 4 points remain after the removal of exact
    duplicates, or when every 4 of the remaining points are coplanar (or
    collinear) within the tolerance, the build of the hull raises
    [DegenerateInputError], and so does [ConvexHull3D]: no hull and no
    polyhedron is returned. *)
Theorem ConvexHull3D_init_degenerate points tolerance h :
  (length (remove_dups points) < 4)%nat
  ∨ Forall (coplanar_within tolerance) (selections 4 (remove_dups points)) →
  QuickHull_build absorb tolerance points = Raise DegenerateInputError
  ∧ ConvexHull3D_init absorb points tolerance h = Raise DegenerateInputError.
Proof.
  intros Hdeg. pose proof (QuickHull_build_degenerate _ _ Hdeg) as Hbuild.
  split; [done|]. unfold ConvexHull3D_init. by rewrite Hbuild.
Qed.

End Degenerate_input.

(** C7 at the four coplanar points (0,0,0), (1,0,0), (0,1,0), (1,1,0) of the
    specification, with the default tolerance. *)
Lemma ConvexHull3D_init_degenerate_witness :
  ((length (remove_dups coplanar_square) < 4)%nat
   ∨ Forall (coplanar_within default_tolerance)
            (selections 4 (remove_dups coplanar_square)))
  ∧ QuickHull_build no_absorption default_tolerance coplanar_square
    = Raise DegenerateInputError
  ∧ ConvexHull3D_init (H := insertion_order Facet) (H0 := insertion_order Point)
      (H1 := rational_renderer) no_absorption coplanar_square
      default_tolerance []
    = Raise DegenerateInputError.
Proof.
  assert ((length (remove_dups coplanar_square) < 4)%nat
          ∨ Forall (coplanar_within default_tolerance)
                   (selections 4 (remove_dups coplanar_square))) as Hdeg.
  { right. apply (bool_decide_unpack _). vm_compute. reflexivity. }
  split; [exact Hdeg|].
  exact (ConvexHull3D_init_degenerate no_absorption
           (H := insertion_order Facet) (H0 := insertion_order Point)
           (H1 := rational_renderer) coplanar_square default_tolerance [] Hdeg).
Defined.

(** The check is not vacuous: three points (after the removal of a
    duplicate) are rejected, and the corners of a tetrahedron are accepted. *)
Example QuickHull_build_three_points :
  QuickHull_build no_absorption default_tolerance
    [(0, 0, 0); (1, 0, 0); (0, 1, 0); (1, 0, 0)]%Qc
  = Raise DegenerateInputError.
Proof. vm_compute. reflexivity. Qed.

Example QuickHull_build_tetrahedron :
  ∃ hull, QuickHull_build no_absorption default_tolerance
            [(0, 0, 0); (1, 0, 0); (0, 1, 0); (0, 0, 1)]%Qc = Ok hull.
Proof. eexists. vm_compute. reflexivity. Qed.

(** * Further properties of the code *)

(** ** More on edge derivation *)

Lemma get_edges_concat faces_list :
  get_edges faces_list = concat (cyclic_zip <$> faces_list).
Proof. unfold get_edges. by rewrite get_edges_from. Qed.

Lemma cyclic_zip_fst face : (cyclic_zip face).*1 = face.
Proof.
  unfold cyclic_zip. apply fst_zip.
  rewrite length_app, length_drop, length_take. destruct face; simpl; lia.
Qed.

Lemma cyclic_zip_snd face : (cyclic_zip face).*2 = drop 1 face ++ take 1 face.
Proof.
  unfold cyclic_zip. apply snd_zip.
  rewrite length_app, length_drop, length_take. destruct face; simpl; lia.
Qed.

Lemma concat_cyclic_zip_fst (fl : list (list Z)) :
  (concat (cyclic_zip <$> fl)).*1 = concat fl.
Proof.
  induction fl as [|face fl IH]; [done|].
  cbn [fmap list_fmap concat]. rewrite fmap_app, cyclic_zip_fst.
  f_equal. exact IH.
Qed.

Lemma concat_cyclic_zip_snd (fl : list (list Z)) :
  (concat (cyclic_zip <$> fl)).*2
  = concat ((λ face, drop 1 face ++ take 1 face) <$> fl).
Proof.
  induction fl as [|face fl IH]; [done|].
  cbn [fmap list_fmap concat]. rewrite fmap_app, cyclic_zip_snd.
  f_equal. exact IH.
Qed.

(** X1: The edges of a face list leave every index as often as they enter it:
    the sources of the edges are the indices of the faces in order, the
    targets are the indices of every face rotated by one place, and the two
    lists are permutations of each other. *)
Theorem get_edges_sources_targets (faces_list : list (list Z)) :
  (get_edges faces_list).*1 = concat faces_list
  ∧ (get_edges faces_list).*2
    = concat ((λ face, drop 1 face ++ take 1 face) <$> faces_list)
  ∧ (get_edges faces_list).*1 ≡ₚ (get_edges faces_list).*2.
Proof.
  rewrite get_edges_concat, concat_cyclic_zip_fst, concat_cyclic_zip_snd.
  split; [done|]. split; [done|].
  induction faces_list as [|face fl IH]; [done|].
  cbn [fmap list_fmap concat]. apply Permutation_app; [|exact IH].
  rewrite Permutation_app_comm. by rewrite take_drop.
Qed.

(** X2: Both ends of every edge are indices of one and the same face; with
    faces of valid indices every edge joins two valid indices. *)
Theorem get_edges_endpoints (faces_list : list (list Z)) (n : nat) :
  Forall (Forall (in_range n)) faces_list →
  Forall (λ e, in_range n e.1 ∧ in_range n e.2
               ∧ ∃ face, face ∈ faces_list ∧ e.1 ∈ face ∧ e.2 ∈ face)
         (get_edges faces_list).
Proof.
  intros Hfl. rewrite get_edges_concat. apply Forall_forall. intros [u v] He.
  apply list_elem_of_In, in_concat in He as (es & Hes & He).
  apply list_elem_of_In, list_elem_of_fmap in Hes as (face & -> & Hface).
  apply list_elem_of_In in He. unfold cyclic_zip in He.
  pose proof (elem_of_zip_l _ _ _ _ He) as Hu.
  pose proof (elem_of_zip_r _ _ _ _ He) as Hv.
  assert (v ∈ face) as Hv'.
  { apply elem_of_app in Hv as [Hv|Hv].
    - exact (subseteq_drop 1 face v Hv).
    - exact (subseteq_take 1 face v Hv). }
  rewrite Forall_forall in Hfl. specialize (Hfl face Hface).
  rewrite Forall_forall in Hfl. simpl.
  split; [by apply Hfl|]. split; [by apply Hfl|]. by exists face.
Qed.

Lemma get_edges_endpoints_witness :
  Forall (Forall (in_range 5)) pyramid_faces_list
  ∧ Forall (λ e, in_range 5 e.1 ∧ in_range 5 e.2
                 ∧ ∃ face, face ∈ pyramid_faces_list ∧ e.1 ∈ face ∧ e.2 ∈ face)
           (get_edges pyramid_faces_list).
Proof.
  assert (Forall (Forall (in_range 5)) pyramid_faces_list) as Hfl.
  { apply (bool_decide_unpack _). vm_compute. reflexivity. }
  split; [exact Hfl|]. exact (get_edges_endpoints pyramid_faces_list 5 Hfl).
Defined.

(** X3: The edges of a concatenation of face lists are the edges of the parts;
    a face of one index contributes a loop and an empty face nothing. *)
Theorem get_edges_app (fl1 fl2 : list (list Z)) :
  get_edges (fl1 ++ fl2) = get_edges fl1 ++ get_edges fl2
  ∧ (∀ v, get_edges (fl1 ++ [v] :: fl2)
          = get_edges fl1 ++ (v, v) :: get_edges fl2)
  ∧ get_edges (fl1 ++ [] :: fl2) = get_edges fl1 ++ get_edges fl2.
Proof.
  assert (∀ l1 l2, get_edges (l1 ++ l2) = get_edges l1 ++ get_edges l2) as Happ.
  { intros l1 l2. rewrite !get_edges_concat, fmap_app. apply concat_app. }
  split; [apply Happ|]. split.
  - intros v. rewrite Happ. f_equal.
    change ([v] :: fl2) with ([[v]] ++ fl2). by rewrite Happ.
  - rewrite Happ. f_equal.
Qed.

(** ** More on construction *)

Section Construction_extras.
Context {R : Type} `{PolygonRenderer R}.
Implicit Types (h : heap R) (vc : list (Point3D R)) (fl : list (list Z)).




End Construction_extras.


(** ** More on the synchronization step *)

Section Synchronization_extras.
Context {R : Type} `{PolygonRenderer R}.
Implicit Types (h : heap R) (vc : list (Point3D R)) (fl : list (list Z)).


(** In a polyhedron as the invariant describes it, the dot of a valid
    label is found at the position of the label in the vertex dictionary. *)
Lemma graph_find_label vc fl self h p fs vs j :
  polyhedron_at vc fl self h p fs vs → in_range (length vc) j →
  ∃ m, vs !! Z.to_nat j = Some (j, m)
       ∧ list_find (λ kv : Z * oid, kv.1 = j) vs = Some (Z.to_nat j, (j, m)).
Proof.
  intros [] Hj. unfold in_range in Hj.
  assert (vs.*1 !! Z.to_nat j = Some j) as Hlab.
  { rewrite at_labels0. apply lookup_seqZ. lia. }
  rewrite list_lookup_fmap in Hlab.
  destruct (vs !! Z.to_nat j) as [[j' m]|] eqn:Hvs; simpl in Hlab; [|done].
  injection Hlab as ->. exists m. split; [done|].
  apply list_find_Some. split_and!; [done..|].
  intros i [j' m'] Hi Hlt Hj'. simpl in Hj'. subst j'.
  assert (vs.*1 !! i = Some j) as Hi1 by (by rewrite list_lookup_fmap, Hi).
  rewrite at_labels0 in Hi1. apply lookup_seqZ in Hi1. lia.
Qed.

Lemma vertex_center_dot vc fl self h p fs vs j m :
  polyhedron_at vc fl self h p fs vs →
  list_find (λ kv : Z * oid, kv.1 = j) vs = Some (Z.to_nat j, (j, m)) →
  vertex_center self h j
  = match h !! m with Some (Dot3DObj c) => Some c | _ => None end.
Proof.
  intros [] Hfind. destruct at_graph0 as [es Hes].
  unfold vertex_center. by rewrite at_self0, Hes, Hfind.
Qed.

Lemma Forall2_with_Forall_l {A B} (P : A → B → Prop) (Q : A → Prop) l k :
  Forall2 P l k → Forall Q l → Forall2 (λ x y, P x y ∧ Q x) l k.
Proof.
  induction 1 as [|x y l k HP _ IH]; [constructor|].
  intros [HQ Hl]%Forall_cons. constructor; [done|by apply IH].
Qed.



Lemma set_points_keeps h m g o x :
  h !! o = Some x → (∀ g', x ≠ PolygonObj g') → set_points m g h !! o = Some x.
Proof.
  intros Ho Hx. unfold set_points.
  destruct (h !! m) as [[g0| | | |]|] eqn:Hm; try done.
  rewrite list_lookup_insert_ne; [done|]. intros ->.
  rewrite Ho in Hm. injection Hm as ->. by eapply Hx.
Qed.

(** X8: What external code did to the point data of a face is overwritten by
    the next run: after any assignment to the points of any polygon the run
    leaves the same face polygons as it does without the assignment. *)
Theorem update_faces_overrides_face_edits vc fl self h m g :
  constructed vc fl self h →
  ∃ h1 h2 polys,
    update_faces self h = Ok h1
    ∧ update_faces self (set_points m g h) = Ok h2
    ∧ face_polygons self h1 = Some polys
    ∧ face_polygons self h2 = Some polys.
Proof.
  intros Hc. destruct (constructed_inv _ _ _ _ Hc) as (p & fs & vs & Hat & _).
  assert (polyhedron_at vc fl self (set_points m g h) p fs vs) as Hat'.
  { eapply polyhedron_at_evolves; [exact Hat|apply evolves_set_points]. }
  destruct (update_faces_run _ _ _ _ _ _ _ Hat)
    as (fc & h1 & Hfc & Hup & _ & Hpolys & _).
  destruct (update_faces_run _ _ _ _ _ _ _ Hat')
    as (fc' & h2 & Hfc' & Hup' & _ & Hpolys' & _).
  assert (fc' = fc) as ->.
  { eapply centers_of_unique; [|exact Hfc].
    eapply centers_of_agree; [|exact Hfc']. intros v.
    eapply vertex_center_agree; [exact Hat|].
    intros o x Ho Hx. by apply set_points_keeps. }
  by exists h1, h2, (Polygon <$> fc).
Qed.

(** X9: Every run creates a new group and a new polygon for every face, which
    stay in the heap beside the face polygons of the polyhedron and hold
    the same point data. *)
Theorem update_faces_allocates vc fl self h :
  constructed vc fl self h →
  ∃ h' polys,
    update_faces self h = Ok h'
    ∧ length h' = (length h + 1 + length fl)%nat
    ∧ face_polygons self h' = Some polys
    ∧ h' !! length h = Some (VGroupObj (seq (S (length h)) (length fl)))
    ∧ Forall2 (λ m g, h' !! m = Some (PolygonObj g))
              (seq (S (length h)) (length fl)) polys.
Proof.
  intros Hc. destruct (constructed_inv _ _ _ _ Hc) as (p & fs & vs & Hat & _).
  destruct (update_faces_spec _ _ _ _ _ _ _ Hat)
    as (fc & h' & Hfc & _ & Hup & Hlen & Hset & Hrest).
  assert (length fc = length fl) as Hfcl
    by (symmetry; by eapply Forall2_length).
  assert (∀ o, (length h ≤ o)%nat → o ∉ fs) as Hnew.
  { intros o Ho Hin. destruct Hat. rewrite Forall_forall in at_polygons0.
    destruct (at_polygons0 o Hin) as [g Hg]. apply lookup_lt_Some in Hg. lia. }
  exists h', (Polygon <$> fc). split_and!; [done..| | |].
  - eapply face_polygons_after; [|exact Hfcl|exact Hset].
    eapply polyhedron_at_evolves; [exact Hat|].
    by eapply polyhedron_at_evolves_update.
  - rewrite Hrest by (apply Hnew; lia). rewrite Hfcl.
    by apply list_lookup_middle.
  - apply Forall2_same_length_lookup. split.
    { rewrite length_seq, length_fmap. lia. }
    intros i m g Hm Hg. apply lookup_seq in Hm as [-> _].
    rewrite Hrest by (apply Hnew; lia).
    rewrite lookup_app_r by lia.
    replace (S (length h) + i - length h)%nat with (S i) by lia. simpl.
    rewrite list_lookup_fmap in Hg. rewrite list_lookup_fmap.
    destruct (fc !! i); simpl in *; congruence.
Qed.

(** *** Moving one vertex *)

Lemma constructed_dots_NoDup vc fl self h :
  constructed vc fl self h →
  ∃ p vs es, h !! self = Some (PolyhedronObj p)
             ∧ h !! graph p = Some (GraphObj vs es) ∧ NoDup (vs.*2).
Proof.
  assert (∀ h h', evolves h h' →
            (∃ p vs es, h !! self = Some (PolyhedronObj p)
                        ∧ h !! graph p = Some (GraphObj vs es) ∧ NoDup (vs.*2)) →
            ∃ p vs es, h' !! self = Some (PolyhedronObj p)
                       ∧ h' !! graph p = Some (GraphObj vs es) ∧ NoDup (vs.*2))
    as Hev.
  { intros h1 h2 He (p & vs & es & Hp & Hg & Hnd). exists p, vs, es.
    split_and!; [by eapply evolves_polyhedron|by eapply evolves_graph|done]. }
  induction 1 as [h0 h Hinit|h m c _ IH|h m g _ IH|h o _ IH|h h' Hc IH Hup].
  - pose proof (Polyhedron_init_Ok_in_range _ _ _ _ Hinit) as Hfl.
    destruct (Polyhedron_init_heap vc fl h0 Hfl) as (fc & Hfc & Heq).
    rewrite Heq in Hinit. injection Hinit as <- <-.
    assert (length fc = length fl) as Hlen
      by (symmetry; by eapply Forall2_length).
    pose proof (polyhedron_at_constructed_heap vc fl fc h0 Hfl Hlen) as [].
    destruct at_graph0 as [es Hes]. do 3 eexists.
    split; [exact at_self0|]. split; [exact Hes|].
    rewrite snd_zip by (rewrite length_seqZ, length_seq; lia). apply NoDup_seq.
  - eapply Hev; [apply evolves_move_vertex|exact IH].
  - eapply Hev; [apply evolves_set_points|exact IH].
  - eapply Hev; [apply evolves_app|exact IH].
  - destruct (constructed_inv _ _ _ _ Hc) as (p & fs & vs & Hat & _).
    eapply Hev; [by eapply update_faces_evolves|exact IH].
Qed.

(** X10: After the dot of vertex [v] was moved to [c], a run puts [c] at every
    corner that refers to [v] and the unchanged centre of the vertex at
    every other corner. *)
Theorem update_faces_after_move vc fl self h v c :
  constructed vc fl self h → in_range (length vc) v →
  ∃ p vs es m h' polys,
    h !! self = Some (PolyhedronObj p)
    ∧ h !! graph p = Some (GraphObj vs es)
    ∧ vs !! Z.to_nat v = Some (v, m)
    ∧ update_faces self (move_vertex m c h) = Ok h'
    ∧ face_polygons self h' = Some polys
    ∧ Forall2 (λ face g,
                 ∃ cs, g = Polygon cs
                       ∧ Forall2 (λ j x, if decide (j = v) then x = c
                                         else vertex_center self h j = Some x)
                                 face cs)
              fl polys.
Proof.
  intros Hc Hv.
  destruct (constructed_inv _ _ _ _ Hc) as (p & fs & vs & Hat & _).
  destruct (constructed_dots_NoDup _ _ _ _ Hc) as (p' & vs' & es & Hp' & Hg' & Hnd).
  pose proof Hat as []. rewrite at_self0 in Hp'. injection Hp' as <-.
  destruct at_graph0 as [es' Hes']. rewrite Hes' in Hg'. injection Hg' as <- <-.
  destruct (graph_find_label _ _ _ _ _ _ _ v Hat Hv) as (m & Hm & Hfindv).
  assert (∃ c0, h !! m = Some (Dot3DObj c0)) as [c0 Hc0].
  { rewrite Forall_forall in at_dots0. apply at_dots0.
    apply list_elem_of_fmap. exists (v, m). split; [done|].
    by eapply list_elem_of_lookup_2. }
  set (h1 := move_vertex m c h).
  assert (polyhedron_at vc fl self h1 p fs vs) as Hat1.
  { eapply polyhedron_at_evolves; [exact Hat|apply evolves_move_vertex]. }
  assert (∀ j, in_range (length vc) j →
            vertex_center self h1 j
            = if decide (j = v) then Some c else vertex_center self h j) as Hvc.
  { intros j Hj.
    destruct (graph_find_label _ _ _ _ _ _ _ j Hat Hj) as (mj & Hmj & Hfindj).
    rewrite (vertex_center_dot _ _ _ _ _ _ _ _ _ Hat1 Hfindj).
    rewrite (vertex_center_dot _ _ _ _ _ _ _ _ _ Hat Hfindj).
    unfold h1, move_vertex. rewrite Hc0. case_decide as Hjv.
    - subst j. rewrite Hmj in Hm. injection Hm as <-.
      rewrite list_lookup_insert_eq; [done|by eapply lookup_lt_Some].
    - rewrite list_lookup_insert_ne; [done|]. intros <-.
      apply Hjv. unfold in_range in Hj, Hv.
      assert (Z.to_nat j = Z.to_nat v); [|lia].
      eapply (NoDup_lookup (vs.*2)); [exact Hnd|..].
      + by rewrite list_lookup_fmap, Hmj.
      + by rewrite list_lookup_fmap, Hm. }
  destruct (update_faces_run _ _ _ _ _ _ _ Hat1)
    as (fc & h' & Hfc & Hup & _ & Hpolys & _).
  exists p, vs, es', m, h', (Polygon <$> fc). split_and!; [done..|].
  apply Forall2_fmap_r.
  eapply Forall2_impl; [exact (Forall2_with_Forall_l _ _ _ _ Hfc at_in_range0)|].
  intros face cs [Hcs Hin]. exists cs. split; [done|].
  unfold centers_of in Hcs. clear -Hcs Hin Hvc.
  induction Hcs as [|j x face cs Hj _ IH]; [constructor|].
  apply Forall_cons in Hin as [Hjn Hin]. constructor; [|by apply IH].
  rewrite (Hvc j Hjn) in Hj. case_decide; [congruence|done].
Qed.

(** *** The graph is read by position *)

Lemma comprehension_Forall2 {A B} (f : A → result B) l k :
  Forall2 (λ x y, f x = Ok y) l k → comprehension f l = Ok k.
Proof.
  induction 1 as [|x y l k Hx _ IH]; [done|].
  cbn [comprehension]. by rewrite Hx, bind_Ok, IH, bind_Ok.
Qed.

(** X11: [extract_face_coords] numbers the vertex dots of the graph by their
    position in the vertex dictionary, whatever their labels are: index [j]
    of a face stands for the centre of the [j]-th dot.  With valid indices
    it returns the corners taken from these centres, and with an index that
    is not below the number of dots it raises the [KeyError] of the first
    such index. *)
Theorem extract_face_coords_positional (p : Polyhedron R) h vs es cs :
  h !! graph p = Some (GraphObj vs es) →
  NoDup (vs.*1) →
  Forall2 (λ kv c, h !! kv.2 = Some (Dot3DObj c)) vs cs →
  extract_face_coords p h = lookup_faces (dict_enumerate cs) (faces_list p)
  ∧ (Forall (Forall (in_range (length vs))) (faces_list p) →
     ∃ fc, extract_face_coords p h = Ok fc
           ∧ Forall2 (corners_of cs) (faces_list p) fc)
  ∧ (∀ i k, list_find (λ j, ¬ in_range (length vs) j) (concat (faces_list p))
            = Some (i, k) →
            extract_face_coords p h = Raise (KeyError k)).
Proof.
  intros Hg Hnd Hcs.
  assert (length cs = length vs) as Hlen
    by (symmetry; by eapply Forall2_length).
  assert (extract_face_coords p h
          = lookup_faces (dict_enumerate cs) (faces_list p)) as Heq.
  { unfold extract_face_coords. rewrite Hg.
    rewrite (comprehension_Forall2 _ _ cs); [done|].
    apply Forall2_fmap_l. apply Forall2_same_length_lookup_2; [lia|].
    intros i [v m] c Hi Hc.
    simpl. unfold Graph_getitem.
    assert (list_find (λ kv : Z * oid, kv.1 = v) vs = Some (i, (v, m))) as Hfind.
    { apply list_find_Some. split_and!; [done..|].
      intros j [v' m'] Hj Hlt Hv'. simpl in Hv'. subst v'.
      assert (j = i); [|lia].
      eapply (NoDup_lookup (vs.*1)); [exact Hnd|..].
      - by rewrite list_lookup_fmap, Hj.
      - by rewrite list_lookup_fmap, Hi. }
    rewrite Hfind.
    rewrite bind_Ok. unfold get_center.
    destruct (Forall2_lookup_l _ _ _ _ _ Hcs Hi) as (c' & Hc' & Hdot).
    simpl in Hdot. rewrite Hdot. congruence. }
  split; [exact Heq|]. rewrite Heq, <- Hlen. split.
  - apply lookup_faces_Ok.
  - intros i k. apply lookup_faces_first_bad.
Qed.

(** *** Two polyhedra in one heap *)

Lemma face_polygons_ext self h h' p ms :
  h !! self = Some (PolyhedronObj p) →
  h !! faces p = Some (VGroupObj ms) →
  h' !! self = h !! self →
  h' !! faces p = h !! faces p →
  Forall (λ m, h' !! m = h !! m) ms →
  face_polygons self h' = face_polygons self h.
Proof.
  intros Hp Hg Hp' Hg' Hms. unfold face_polygons.
  rewrite Hp', Hp, Hg', Hg. clear -Hms.
  induction Hms as [|m ms Hm _ IH]; [done|].
  cbn [mapM]. by rewrite Hm, IH.
Qed.

(** X12: Two polyhedra built one after the other share no object: a run of the
    synchronization step of either one leaves the face polygons of the
    other as they are. *)
Theorem update_faces_independent vc1 fl1 vc2 fl2 h0 s1 h1 s2 h2 :
  Polyhedron_init vc1 fl1 h0 = Ok (s1, h1) →
  Polyhedron_init vc2 fl2 h1 = Ok (s2, h2) →
  ∃ h3 h3',
    update_faces s1 h2 = Ok h3
    ∧ face_polygons s2 h3 = face_polygons s2 h2
    ∧ update_faces s2 h2 = Ok h3'
    ∧ face_polygons s1 h3' = face_polygons s1 h2.
Proof.
  intros Hinit1 Hinit2.
  destruct (polyhedron_inv_init _ _ _ _ _ Hinit1) as (p1 & fs1 & vs1 & Hat1 & _).
  pose proof (Polyhedron_init_Ok_in_range _ _ _ _ Hinit2) as Hfl2.
  destruct (Polyhedron_init_heap vc2 fl2 h1 Hfl2) as (fc2 & Hfc2 & Heq2).
  assert (length fc2 = length fl2) as Hlen2
    by (symmetry; by eapply Forall2_length).
  pose proof (polyhedron_at_constructed_heap vc2 fl2 fc2 h1 Hfl2 Hlen2) as Hat2.
  rewrite Heq2 in Hinit2. injection Hinit2 as Hs2 Hh2.
  set (p2 := mkPolyhedron vc2 (seqZ 0 (Z.of_nat (length vc2)))
               (dict_enumerate vc2) fl2 fc2 (get_edges fl2) (length h1)
               (S (length h1) + length fc2 + length vc2)%nat
               [length h1; (S (length h1) + length fc2 + length vc2)%nat])
    in Hat2.
  set (fs2 := seq (S (length h1)) (length fc2)) in Hat2.
  set (vs2 := zip (seqZ 0 (Z.of_nat (length vc2)))
                  (seq (S (length h1) + length fc2) (length vc2))) in Hat2.
  assert (polyhedron_at vc2 fl2 s2 h2 p2 fs2 vs2) as Hat2'.
  { rewrite <- Hs2, <- Hh2. exact Hat2. }
  clear Hat2. rename Hat2' into Hat2.
  assert (evolves h1 h2) as Hev.
  { rewrite <- Hh2. unfold constructed_heap. apply evolves_app. }
  assert (polyhedron_at vc1 fl1 s1 h2 p1 fs1 vs1) as Hat1'.
  { by eapply polyhedron_at_evolves. }
  assert (∀ o, o ∈ fs1 → (o < length h1)%nat) as Hfs1.
  { intros o Ho. destruct Hat1. rewrite Forall_forall in at_polygons0.
    destruct (at_polygons0 o Ho) as [g Hg]. by eapply lookup_lt_Some. }
  assert (∀ o, o ∈ fs2 → (length h1 < o)%nat) as Hfs2.
  { intros o Ho. unfold fs2 in Ho. apply elem_of_seq in Ho. lia. }
  destruct (update_faces_run _ _ _ _ _ _ _ Hat1')
    as (fc & h3 & _ & Hup & _ & _ & _ & Hold & _).
  destruct (update_faces_run _ _ _ _ _ _ _ Hat2)
    as (fc' & h3' & _ & Hup' & _ & _ & _ & Hold' & _).
  exists h3, h3'. split_and!; [done| |done|].
  - pose proof Hat2 as [].
    eapply face_polygons_ext; [exact at_self0|exact at_faces0|..].
    + apply Hold; [by eapply lookup_lt_Some|].
      eapply (not_polygon_not_member _ _ _ _ _ _ _ _ _ Hat1' at_self0). done.
    + apply Hold; [by eapply lookup_lt_Some|].
      eapply (not_polygon_not_member _ _ _ _ _ _ _ _ _ Hat1' at_faces0). done.
    + apply Forall_forall. intros m Hm. rewrite Forall_forall in at_polygons0.
      destruct (at_polygons0 m Hm) as [g Hg].
      apply Hold; [by eapply lookup_lt_Some|].
      intros Hin. specialize (Hfs1 m Hin). specialize (Hfs2 m Hm). lia.
  - pose proof Hat1' as [].
    eapply face_polygons_ext; [exact at_self0|exact at_faces0|..].
    + apply Hold'; [by eapply lookup_lt_Some|].
      eapply (not_polygon_not_member _ _ _ _ _ _ _ _ _ Hat2 at_self0). done.
    + apply Hold'; [by eapply lookup_lt_Some|].
      eapply (not_polygon_not_member _ _ _ _ _ _ _ _ _ Hat2 at_faces0). done.
    + apply Forall_forall. intros m Hm. rewrite Forall_forall in at_polygons0.
      destruct (at_polygons0 m Hm) as [g Hg].
      apply Hold'; [by eapply lookup_lt_Some|].
      intros Hin. specialize (Hfs1 m Hm). specialize (Hfs2 m Hin). lia.
Qed.
End Synchronization_extras.

(** ** More on the face extraction of [ConvexHull3D] *)

Section Extraction_extras.
Context {R : Type} `{SetOrder Facet} `{SetOrder Point}.
Implicit Types (hull : QuickHull R).

Lemma elem_of_live_facets hull facet :
  facet ∈ live_facets hull ↔ facet ∈ facets hull ∧ (facet ∉ removed hull).
Proof.
  unfold live_facets, set_difference.
  rewrite set_iter_elem_of, list_elem_of_filter, elem_of_set_of_list. tauto.
Qed.

Lemma live_facets_NoDup hull : NoDup (live_facets hull).
Proof.
  unfold live_facets, set_difference.
  apply set_iter_NoDup, NoDup_filter, set_of_list_NoDup.
Qed.

Lemma elem_of_traversal hull p :
  p ∈ traversal hull
  ↔ (∃ facet, facet ∈ facets hull ∧ (facet ∉ removed hull)
              ∧ p ∈ facet_points facet).
Proof.
  unfold traversal. rewrite list_elem_of_In, in_concat. split.
  - intros (ps & Hps & Hp).
    apply list_elem_of_In, list_elem_of_fmap in Hps as (facet & -> & Hfacet).
    apply elem_of_live_facets in Hfacet as [Hf Hr].
    apply list_elem_of_In in Hp. by exists facet.
  - intros (facet & Hf & Hr & Hp). exists (facet_points facet).
    rewrite <- !list_elem_of_In. split; [|done].
    apply list_elem_of_fmap. exists facet. split; [done|].
    by apply elem_of_live_facets.
Qed.

(** X13: The vertex table and the dictionary [d] are inverse to each other:
    every point of a live facet has an index, the entry of the table at
    that index holds the coordinates of the point, distinct points have
    distinct indices, the counter [c] is the length of the table, and a
    point of no live facet has no index. *)
Theorem extract_faces_roundtrip hull :
  ∃ e,
    extract_faces hull = Ok e
    ∧ ex_c e = Z.of_nat (length (ex_vertices e))
    ∧ (∀ p, p ∈ traversal hull →
            ∃ j, ex_d e !! p = Some j ∧ 0 ≤ j < ex_c e
                 ∧ ex_vertices e !! Z.to_nat j = Some (coordinates hull p))
    ∧ (∀ p, p ∉ traversal hull → ex_d e !! p = None)
    ∧ (∀ p q j, ex_d e !! p = Some j → ex_d e !! q = Some j → p = q).
Proof.
  destruct (extract_faces_state hull) as (faces & Hrun & _).
  pose proof (set_of_list_NoDup (traversal hull)) as Hnd.
  fold (first_sights hull) in Hnd.
  eexists. split; [exact Hrun|]. cbn [state_of ex_d ex_vertices ex_faces ex_c].
  split_and!.
  - by rewrite length_fmap.
  - intros p Hp.
    assert (p ∈ first_sights hull) as Hin by (by apply elem_of_set_of_list).
    apply list_elem_of_lookup in Hin as [i Hi]. exists (Z.of_nat i).
    split_and!.
    + apply index_map_lookup; [done|]. by exists i.
    + lia.
    + apply lookup_lt_Some in Hi. lia.
    + by rewrite Nat2Z.id, list_lookup_fmap, Hi.
  - intros p Hp. apply index_map_lookup_None. unfold first_sights.
    by rewrite elem_of_set_of_list.
  - intros p q j. by apply index_map_inj.
Qed.

(** X14: Only the live facets count: the faces correspond one to one to the
    distinct facets of [hull.facets] that are not in [hull.removed], and a
    point gets an index exactly when it lies on such a facet. *)
Theorem extract_faces_live_only hull :
  ∃ e,
    extract_faces hull = Ok e
    ∧ length (ex_faces e) = length (live_facets hull)
    ∧ NoDup (live_facets hull)
    ∧ (∀ facet, facet ∈ live_facets hull
                ↔ facet ∈ facets hull ∧ (facet ∉ removed hull))
    ∧ (∀ p, is_Some (ex_d e !! p)
            ↔ ∃ facet, facet ∈ facets hull ∧ (facet ∉ removed hull)
                       ∧ p ∈ facet_points facet).
Proof.
  destruct (extract_faces_state hull) as (faces & Hrun & Hfaces).
  eexists. split; [exact Hrun|]. cbn [state_of ex_d ex_vertices ex_faces ex_c].
  split_and!.
  - symmetry. by eapply Forall2_length.
  - apply live_facets_NoDup.
  - apply elem_of_live_facets.
  - intros p. rewrite <- elem_of_traversal, <- not_eq_None_Some.
    rewrite index_map_lookup_None. unfold first_sights.
    rewrite elem_of_set_of_list. split; [|tauto].
    intros Hp. by destruct (decide (p ∈ traversal hull)).
Qed.

(** X15: A face has as many indices as its facet has distinct points, and two
    facets with the same points give faces with the same indices, up to
    their order. *)
Theorem extract_faces_same_points hull :
  ∃ e,
    extract_faces hull = Ok e
    ∧ Forall2 (λ facet face,
                 length face = length (set_of_list (facet_points facet)))
              (live_facets hull) (ex_faces e)
    ∧ (∀ i1 i2 facet1 facet2 face1 face2,
         live_facets hull !! i1 = Some facet1 →
         live_facets hull !! i2 = Some facet2 →
         ex_faces e !! i1 = Some face1 →
         ex_faces e !! i2 = Some face2 →
         (∀ p, p ∈ facet_points facet1 ↔ p ∈ facet_points facet2) →
         face1 ≡ₚ face2).
Proof.
  destruct (extract_faces_state hull) as (faces & Hrun & Hfaces).
  eexists. split; [exact Hrun|]. cbn [state_of ex_d ex_vertices ex_faces ex_c].
  split.
  - eapply Forall2_impl; [exact Hfaces|]. intros facet face HF.
    apply Forall2_length in HF. rewrite <- HF.
    apply Permutation_length, set_iter_Permutation, set_of_list_NoDup.
  - intros i1 i2 facet1 facet2 face1 face2 Hf1 Hf2 Hface1 Hface2 Hsame.
    destruct (Forall2_lookup_l _ _ _ _ _ Hfaces Hf1) as (face1' & Hface1' & HF1).
    destruct (Forall2_lookup_l _ _ _ _ _ Hfaces Hf2) as (face2' & Hface2' & HF2).
    rewrite Hface1 in Hface1'. injection Hface1' as <-.
    rewrite Hface2 in Hface2'. injection Hface2' as <-.
    destruct (Forall2_index_fmap _ _ _ HF1) as [-> _].
    destruct (Forall2_index_fmap _ _ _ HF2) as [-> _].
    apply fmap_Permutation.
    rewrite !set_iter_Permutation by apply set_of_list_NoDup.
    apply NoDup_Permutation; [apply set_of_list_NoDup..|].
    intros p. by rewrite !elem_of_set_of_list.
Qed.

Lemma extract_faces_in_range hull :
  ∃ e, extract_faces hull = Ok e
       ∧ Forall (Forall (in_range (length (ex_vertices e)))) (ex_faces e).
Proof.
  destruct (extract_faces_state hull) as (faces & Hrun & Hfaces).
  eexists. split; [exact Hrun|]. cbn [state_of ex_d ex_vertices ex_faces ex_c].
  rewrite length_fmap. apply Forall_forall. intros face Hface.
  apply list_elem_of_lookup in Hface as [i Hi].
  destruct (Forall2_lookup_r _ _ _ _ _ Hfaces Hi) as (facet & _ & HF).
  apply Forall_forall. intros j Hj.
  apply list_elem_of_lookup in Hj as [k Hk].
  destruct (Forall2_lookup_r _ _ _ _ _ HF Hk) as (p & _ & Hpj).
  eapply index_map_in_range; [|exact Hpj]. apply set_of_list_NoDup.
Qed.

(** X16: The constructor call that ends [ConvexHull3D.__init__] never raises:
    whatever the hull state is, the extracted faces hold valid indices
    only, and the polyhedron is built from the extracted table and faces. *)
Theorem extract_faces_then_Polyhedron_init `{PolygonRenderer R} hull
    (h : heap R) :
  ∃ e self h' p,
    extract_faces hull = Ok e
    ∧ Polyhedron_init (ex_vertices e) (ex_faces e) h = Ok (self, h')
    ∧ h' !! self = Some (PolyhedronObj p)
    ∧ vertex_coords p = ex_vertices e
    ∧ faces_list p = ex_faces e
    ∧ edges p = get_edges (ex_faces e).
Proof.
  destruct (extract_faces_in_range hull) as (e & He & Hrange).
  destruct (Polyhedron_init_Ok _ _ h Hrange)
    as (self & h' & p & fc & Hinit & Hself & Hvc & Hfl & Hes & _).
  by exists e, self, h', p.
Qed.
End Extraction_extras.

(** *** The further properties of the synchronization step on the pyramid *)

Lemma pyramid_constructed :
  Polyhedron_init pyramid_vertex_coords pyramid_faces_list []
  = Ok (12%nat, pyramid_heap).
Proof. vm_compute. reflexivity. Defined.


Lemma update_faces_overrides_face_edits_witness :
  constructed pyramid_vertex_coords pyramid_faces_list 12%nat
    (move_vertex 10%nat (0, 0, 3) pyramid_heap)
  ∧ ∃ h1 h2 polys,
      update_faces 12%nat (move_vertex 10%nat (0, 0, 3) pyramid_heap) = Ok h1
      ∧ update_faces 12%nat
          (set_points 1%nat (Polygon [(9, 9, 9)])
             (move_vertex 10%nat (0, 0, 3) pyramid_heap))
        = Ok h2
      ∧ face_polygons 12%nat h1 = Some polys
      ∧ face_polygons 12%nat h2 = Some polys.
Proof.
  split; [exact pyramid_moved_constructed|].
  destruct (update_faces_overrides_face_edits _ _ _ _ 1%nat (Polygon [(9, 9, 9)])
              pyramid_moved_constructed)
    as (h1 & h2 & polys & H1 & H2 & Hp1 & Hp2).
  exists h1, h2, polys.
  split; [exact H1|]. split; [exact H2|]. split; [exact Hp1|exact Hp2].
Defined.

Lemma update_faces_allocates_witness :
  constructed pyramid_vertex_coords pyramid_faces_list 12%nat
    (move_vertex 10%nat (0, 0, 3) pyramid_heap)
  ∧ ∃ h', update_faces 12%nat (move_vertex 10%nat (0, 0, 3) pyramid_heap) = Ok h'
          ∧ length h'
            = (length (move_vertex 10%nat (0, 0, 3)%Z pyramid_heap) + 1
               + length pyramid_faces_list)%nat.
Proof.
  split; [exact pyramid_moved_constructed|].
  destruct (update_faces_allocates _ _ _ _ pyramid_moved_constructed)
    as (h' & polys & Hup & Hlen & _).
  exists h'. split; [exact Hup|exact Hlen].
Defined.

Lemma update_faces_after_move_witness :
  constructed pyramid_vertex_coords pyramid_faces_list 12%nat pyramid_heap
  ∧ in_range (length pyramid_vertex_coords) 4
  ∧ ∃ m h' polys,
      update_faces 12%nat (move_vertex m (0, 0, 3) pyramid_heap) = Ok h'
      ∧ face_polygons 12%nat h' = Some polys.
Proof.
  assert (constructed pyramid_vertex_coords pyramid_faces_list 12%nat
            pyramid_heap) as Hc.
  { apply (constructed_init _ _ _ []). exact pyramid_constructed. }
  assert (in_range (length pyramid_vertex_coords) 4) as Hv.
  { unfold in_range. simpl. lia. }
  split; [exact Hc|]. split; [exact Hv|].
  destruct (update_faces_after_move _ _ _ _ 4 (0, 0, 3) Hc Hv)
    as (p & vs & es & m & h' & polys & _ & _ & _ & Hup & Hpolys & _).
  exists m, h', polys. split; [exact Hup|exact Hpolys].
Defined.

Lemma extract_face_coords_positional_witness :
  relabelled_heap !! graph relabelled_polyhedron
  = Some (GraphObj [(7, 0%nat); (3, 1%nat)] [])
  ∧ NoDup ([(7, 0%nat); (3, 1%nat)].*1)
  ∧ Forall2 (λ (kv : Z * oid) c, relabelled_heap !! kv.2 = Some (Dot3DObj c))
            [(7, 0%nat); (3, 1%nat)] [(1, 1, 1); (2, 2, 2)]
  ∧ extract_face_coords relabelled_polyhedron relabelled_heap
    = Ok [[(1, 1, 1); (2, 2, 2)]].
Proof.
  assert (relabelled_heap !! graph relabelled_polyhedron
          = Some (GraphObj [(7, 0%nat); (3, 1%nat)] [])) as Hg by reflexivity.
  assert (NoDup ([(7, 0%nat); (3, 1%nat)].*1)) as Hnd.
  { apply (bool_decide_unpack _). vm_compute. reflexivity. }
  assert (Forall2 (λ (kv : Z * oid) c, relabelled_heap !! kv.2 = Some (Dot3DObj c))
                  [(7, 0%nat); (3, 1%nat)] [(1, 1, 1); (2, 2, 2)]) as Hcs.
  { repeat constructor. }
  split; [exact Hg|]. split; [exact Hnd|]. split; [exact Hcs|].
  destruct (extract_face_coords_positional relabelled_polyhedron relabelled_heap
              _ _ _ Hg Hnd Hcs) as (Heq & _ & _).
  rewrite Heq. vm_compute. reflexivity.
Defined.

Lemma update_faces_independent_witness :
  Polyhedron_init pyramid_vertex_coords pyramid_faces_list []
  = Ok (12%nat, pyramid_heap)
  ∧ Polyhedron_init pyramid_vertex_coords pyramid_faces_list pyramid_heap
    = Ok (25%nat, two_pyramids_heap)
  ∧ ∃ h3 h3',
      update_faces 12%nat two_pyramids_heap = Ok h3
      ∧ face_polygons 25%nat h3 = face_polygons 25%nat two_pyramids_heap
      ∧ update_faces 25%nat two_pyramids_heap = Ok h3'
      ∧ face_polygons 12%nat h3' = face_polygons 12%nat two_pyramids_heap.
Proof.
  assert (Polyhedron_init pyramid_vertex_coords pyramid_faces_list pyramid_heap
          = Ok (25%nat, two_pyramids_heap)) as H2.
  { vm_compute. reflexivity. }
  split; [exact pyramid_constructed|]. split; [exact H2|].
  exact (update_faces_independent _ _ _ _ _ _ _ _ _ pyramid_constructed H2).
Defined.

(** ** More on the solids and on [ConvexHull3D.__init__] *)

Lemma built_faces_Polyhedron_init {R} `{PolygonRenderer R}
    (vc : list (Point3D R)) (fl : list (list Z)) (h : heap R) :
  Forall (Forall (in_range (length vc))) fl →
  built_faces (Polyhedron_init vc fl h) = Some fl.
Proof.
  intros Hfl.
  destruct (Polyhedron_init_Ok vc fl h Hfl)
    as (self & h' & p & fc & -> & Hself & _ & <- & _).
  unfold built_faces. by rewrite Hself.
Qed.

(** X17: The face lists of the four solids are closed surfaces: the faces are
    triangles (pentagons for the dodecahedron), 3, 4, 5 and 3 faces meet at
    every vertex, and every undirected edge lies on exactly two faces. *)
Theorem platonic_solids_closed {R} `{Scalar R} `{PolygonRenderer R}
    (edge_length : R) (h : heap R) :
  ∃ ft fo fi fd,
    built_faces (Tetrahedron edge_length h) = Some ft
    ∧ built_faces (Octahedron edge_length h) = Some fo
    ∧ built_faces (Icosahedron edge_length h) = Some fi
    ∧ built_faces (Dodecahedron edge_length h) = Some fd
    ∧ regular_closed 3 3 4 ft ∧ regular_closed 3 4 6 fo
    ∧ regular_closed 3 5 12 fi ∧ regular_closed 5 3 20 fd.
Proof.
  do 4 eexists. unfold Tetrahedron, Octahedron, Icosahedron, Dodecahedron.
  split_and!;
    [ apply built_faces_Polyhedron_init, (bool_decide_unpack _);
      vm_compute; reflexivity ..
    | | | | ];
    (unfold regular_closed; split_and!; apply (bool_decide_unpack _);
     vm_compute; reflexivity).
Qed.

(** X18: The faces of the four solids are not wound consistently: in each of
    them some directed edge is run through by two faces in the same
    direction, so [get_edges] lists it twice. *)
Theorem platonic_solids_winding {R} `{Scalar R} `{PolygonRenderer R}
    (edge_length : R) (h : heap R) :
  ∃ ft fo fi fd,
    built_faces (Tetrahedron edge_length h) = Some ft
    ∧ built_faces (Octahedron edge_length h) = Some fo
    ∧ built_faces (Icosahedron edge_length h) = Some fi
    ∧ built_faces (Dodecahedron edge_length h) = Some fd
    ∧ ¬ NoDup (get_edges ft) ∧ ¬ NoDup (get_edges fo)
    ∧ ¬ NoDup (get_edges fi) ∧ ¬ NoDup (get_edges fd).
Proof.
  do 4 eexists. unfold Tetrahedron, Octahedron, Icosahedron, Dodecahedron.
  split_and!;
    [ apply built_faces_Polyhedron_init, (bool_decide_unpack _);
      vm_compute; reflexivity ..
    | | | | ];
    (apply (bool_decide_unpack _); vm_compute; reflexivity).
Qed.

(** X19: [ConvexHull3D.__init__] fails exactly when the build of the hull fails,
    and then with the exception of the build; when the build succeeds, the
    polyhedron is built from the extracted vertex table and faces. *)
Theorem ConvexHull3D_init_outcome
    (absorb : Qc → list (Point3D Qc) → list (Point3D Qc) → QuickHull Qc)
    `{SetOrder Facet} `{SetOrder Point} `{PolygonRenderer Qc}
    (points : list (Point3D Qc)) (tolerance : Qc) (h : heap Qc) :
  (∀ err, QuickHull_build absorb tolerance points = Raise err →
          ConvexHull3D_init absorb points tolerance h = Raise err)
  ∧ (∀ hull, QuickHull_build absorb tolerance points = Ok hull →
       ∃ e self h' p,
         extract_faces hull = Ok e
         ∧ ConvexHull3D_init absorb points tolerance h = Ok (self, h')
         ∧ h' !! self = Some (PolyhedronObj p)
         ∧ vertex_coords p = ex_vertices e
         ∧ faces_list p = ex_faces e).
Proof.
  split.
  - intros err Hbuild. unfold ConvexHull3D_init. by rewrite Hbuild.
  - intros hull Hbuild.
    destruct (extract_faces_in_range hull) as (e & He & Hrange).
    destruct (Polyhedron_init_Ok _ _ h Hrange)
      as (self & h' & p & fc & Hinit & Hself & Hvc & Hfl & _).
    exists e, self, h', p. split_and!; [done| |done..].
    unfold ConvexHull3D_init. by rewrite Hbuild, bind_Ok, He, bind_Ok.
Qed.

(** ** The model on concrete inputs *)

Example get_edges_pyramid :
  get_edges pyramid_faces_list
  = [(0, 1); (1, 4); (4, 0); (1, 2); (2, 4); (4, 1); (2, 3); (3, 4); (4, 2);
     (3, 0); (0, 4); (4, 3); (0, 1); (1, 2); (2, 3); (3, 0)].
Proof. reflexivity. Qed.

Example get_edges_short_faces :
  get_edges [[7]; [3; 5]; []] = [(7, 7); (3, 5); (5, 3)].
Proof. reflexivity. Qed.

Example update_faces_pyramid_moved :
  match update_faces 12%nat (move_vertex 10%nat (0, 0, 3) pyramid_heap) with
  | Ok h => face_polygons 12%nat h
  | Raise _ => None
  end
  = Some [ [(1, 1, 0); (1, -1, 0); (0, 0, 3)];
           [(1, -1, 0); (-1, -1, 0); (0, 0, 3)];
           [(-1, -1, 0); (-1, 1, 0); (0, 0, 3)];
           [(-1, 1, 0); (1, 1, 0); (0, 0, 3)];
           [(1, 1, 0); (1, -1, 0); (-1, -1, 0); (-1, 1, 0)] ].
Proof. vm_compute. reflexivity. Qed.

Example extract_faces_triangle_insertion_order :
  match extract_faces (H := insertion_order Facet) (H0 := insertion_order Point)
                      triangle_hull with
  | Ok e => Some (ex_vertices e, ex_faces e, ex_c e)
  | Raise _ => None
  end
  = Some ([(2, 0, 0); (1, 0, 0); (0, 0, 0)], [[0; 1; 2]], 3).
Proof. vm_compute. reflexivity. Qed.
